(** * Historical token ownership: the fetch / normalize / order / replay pipeline

    A shallow embedding of [index.js].  The script validates its command
    line, walks the block range [BLOCK_FROM .. BLOCK_TO] in windows of
    [BLOCK_SIZE] blocks, dispatches the window queries in groups that are
    awaited together, turns the raw contract events into transfer records,
    sorts them by (blockNumber, transactionIndex, logIndex) and folds them
    into the [ownerRecords] table that is written to disk.

    Modelling conventions.
    - A JavaScript number is an IEEE 754 double.  Every number of the
      script holds an integer, so it is modelled by that integer in [Z];
      the sign of zero is not kept.  Block numbers and log positions stay
      far below 2^53, where the arithmetic on them is exact.  Balances
      need not: [number_add] and [number_sub] round the exact result to
      the nearest double, ties to even, as [+=] and [-=] do.  Amounts
      enter through [BigNumber.toNumber], which throws above 2^53 - 1, so
      no balance comes anywhere near the largest double.
    - A promise that rejects and a [throw] are both a [Throw] of the error
      monad [result]; [await Promise.all] of a group fails when one member
      fails.
    - [ownerRecords] is a plain object keyed by address strings whose values
      are plain objects keyed by decimal token ids, none of which names a
      property of [Object.prototype]: a [gmap string (gmap string Z)].
    - [BLOCK_FROM] and [BLOCK_TO] are taken to have parsed as integers.
    - The standard output of [console.log] is not modelled; the standard
      error stream, the queries dispatched, the file written and the exit
      status are. *)

From Stdlib Require Import ZArith List Lia DecimalString.
From Stdlib Require DecimalPos DecimalZ.
From stdpp Require Import base gmap strings list fin_maps sorting.

Open Scope Z_scope.

(** ** Errors *)

Inductive result (A : Type) : Type :=
| Ok (a : A)
| Throw (e : string).
Arguments Ok {A} a.
Arguments Throw {A} e.

#[global] Instance result_bind : MBind result :=
  λ A B f m, match m with Ok a => f a | Throw e => Throw e end.
#[global] Instance result_ret : MRet result := λ A a, Ok a.

(** ** Data model *)

(** The object pushed onto [transferRecords] (lines 146-154, 170-178,
    187-195). *)
Record Transfer := {
  blockNumber : Z;
  transactionIndex : Z;
  logIndex : Z;
  from : string;
  to : string;
  id : string;
  amount : Z
}.

(** [ownerRecords]: owner address -> token id -> balance. *)
Abbreviation Ledger := (gmap string (gmap string Z)).

(** A block window handed to [getEventsInRange]: (fromBlock, toBlock),
    both inclusive. *)
Abbreviation Chunk := (Z * Z)%type.

(** An ethers [BigNumber] is an unbounded integer. *)
Abbreviation BigNumber := Z (only parsing).

(** [BigNumber.toString()]: the decimal numeral. *)
Definition toString (b : BigNumber) : string :=
  NilZero.string_of_int (Z.to_int b).

Definition MAX_SAFE_INTEGER : Z := 9007199254740991.

(** [BigNumber.toNumber()]: throws when the value does not fit a safe
    JavaScript integer. *)
Definition toNumber (b : BigNumber) : result Z :=
  if (Z.abs b <=? MAX_SAFE_INTEGER) then Ok b else Throw "overflow".

(** Decoded arguments of the three event kinds the script reads. *)
Module TransferArgs.
Record t := { from : string; to : string; tokenId : BigNumber }.
End TransferArgs.

Module TransferSingleArgs.
Record t := { _from : string; _to : string; _id : BigNumber; _amount : BigNumber }.
End TransferSingleArgs.

Module TransferBatchArgs.
Record t := { _from : string; _to : string;
              _ids : list BigNumber; _amounts : list BigNumber }.
End TransferBatchArgs.

(** An event object as [queryFilter] returns it.  The log position sits on
    the object itself and the decoded arguments under [args].  The batch
    loop also reads a property [_ids] of the event object itself (line
    186); [_ids] records that own property, [None] when the object has
    none, which is the case for every event the provider library builds. *)
Module Event.
Record t (A : Type) := {
  blockNumber : Z;
  transactionIndex : Z;
  logIndex : Z;
  args : A;
  _ids : option (list BigNumber)
}.
Arguments blockNumber {A} _.
Arguments transactionIndex {A} _.
Arguments logIndex {A} _.
Arguments args {A} _.
Arguments _ids {A} _.
End Event.

(** The contract handle: one query per event filter, each of which may
    reject. *)
Record EventSource := {
  queryTransfer : Z → Z → result (list (Event.t TransferArgs.t));
  queryTransferSingle : Z → Z → result (list (Event.t TransferSingleArgs.t));
  queryTransferBatch : Z → Z → result (list (Event.t TransferBatchArgs.t))
}.

(** The command line after [parseInt]: [None] stands for an absent
    [--contract] and for [NaN] respectively. *)
Record Config := {
  TOKEN_CONTRACT_ADDRESS : option string;
  ERC_STANDARD : option Z;
  BLOCK_FROM : Z;
  BLOCK_TO : Z
}.

Definition BLOCK_SIZE : Z := 250.
Definition BATCH_NUMBER : Z := 10.

(** ** Range planning and grouped fetch (lines 48-76) *)

Section Fetch.
(** [bs] is the window size ([BLOCK_SIZE] in the script), [block_to] is
    [BLOCK_TO], [getEvents] is [getEventsInRange] applied to the
    contract handle. *)
Variable bs : Z.
Variable block_to : Z.
Variable getEvents : Z → Z → result (list Transfer).

(** The [for] loop of lines 61-73, with [n] iterations left to run;
    returns the windows pushed onto [promises] and the loop variables on
    exit. *)
Fixpoint batch_loop (n : nat) (fromBlock toBlock : Z) : list Chunk * (Z * Z) :=
  match n with
  | O => ([], (fromBlock, toBlock))
  | S n' =>
      let promise := (fromBlock, toBlock) in
      let fromBlock' := toBlock + 1 in
      let toBlock' := Z.min block_to (toBlock + bs) in
      if block_to =? toBlock' then ([promise], (fromBlock', toBlock'))
      else
        let '(promises, st) := batch_loop n' fromBlock' toBlock' in
        (promise :: promises, st)
  end.

(** [await Promise.all(promises)]: all results in dispatch order, or the
    rejection of a member (the first in dispatch order stands for
    whichever rejects first in time). *)
Definition Promise_all (promises : list Chunk) : result (list (list Transfer)) :=
  mapM (λ c : Chunk, getEvents c.1 c.2) promises.

(** The [while] loop of lines 56-76.  Returns the groups dispatched, one
    list per [Promise.all], and the accumulated records or the error
    that ended the loop; [None] only when [fuel] iterations were not
    enough. *)
Fixpoint fetch_loop (fuel : nat) (fromBlock toBlock : Z)
    (transferRecords : list Transfer)
    : option (list (list Chunk) * result (list Transfer)) :=
  if toBlock <? block_to then
    match fuel with
    | O => None
    | S fuel' =>
        let '(promises, (fromBlock', toBlock')) :=
          batch_loop (Z.to_nat (BATCH_NUMBER + 1)) fromBlock toBlock in
        match Promise_all promises with
        | Throw e => Some ([promises], Throw e)
        | Ok rs =>
            match fetch_loop fuel' fromBlock' toBlock'
                    (transferRecords ++ concat rs) with
            | Some (groups, r) => Some (promises :: groups, r)
            | None => None
            end
        end
    end
  else Some ([], Ok transferRecords).
End Fetch.

(** Lines 49-53 and the loop: every pass of the [while] loop moves
    [toBlock] up by at least one block when the window size is positive,
    so [block_to - block_from] passes are always enough. *)
Definition fetch (bs block_from block_to : Z)
    (getEvents : Z → Z → result (list Transfer))
    : option (list (list Chunk) * result (list Transfer)) :=
  let fromBlock := block_from in
  let toBlock := Z.min block_to (block_from + bs) in
  fetch_loop bs block_to getEvents (Z.to_nat (block_to - block_from))
    fromBlock toBlock [].

(** ** Event normalization: [getEventsInRange] (lines 131-204) *)

(** Lines 145-155: one record per [Transfer] event, amount 1. *)
Definition transfer_record (event : Event.t TransferArgs.t) : Transfer :=
  {| blockNumber := Event.blockNumber event;
     transactionIndex := Event.transactionIndex event;
     logIndex := Event.logIndex event;
     from := TransferArgs.from (Event.args event);
     to := TransferArgs.to (Event.args event);
     id := toString (TransferArgs.tokenId (Event.args event));
     amount := 1 |}.

(** Lines 169-179: one record per [TransferSingle] event. *)
Definition single_record (event : Event.t TransferSingleArgs.t) : result Transfer :=
  amount ← toNumber (TransferSingleArgs._amount (Event.args event));
  Ok {| blockNumber := Event.blockNumber event;
        transactionIndex := Event.transactionIndex event;
        logIndex := Event.logIndex event;
        from := TransferSingleArgs._from (Event.args event);
        to := TransferSingleArgs._to (Event.args event);
        id := toString (TransferSingleArgs._id (Event.args event));
        amount := amount |}.

(** Indexing an array and calling a method on the element: a type error
    when the index is out of range. *)
Definition element (l : list BigNumber) (idx : nat) : result BigNumber :=
  match l !! idx with
  | Some x => Ok x
  | None => Throw "TypeError: Cannot read properties of undefined"
  end.

(** Body of the inner loop, lines 187-195, at index [idx]. *)
Definition batch_record (event : Event.t TransferBatchArgs.t) (idx : nat)
    : result Transfer :=
  i ← element (TransferBatchArgs._ids (Event.args event)) idx;
  a ← element (TransferBatchArgs._amounts (Event.args event)) idx;
  amount ← toNumber a;
  Ok {| blockNumber := Event.blockNumber event;
        transactionIndex := Event.transactionIndex event;
        logIndex := Event.logIndex event;
        from := TransferBatchArgs._from (Event.args event);
        to := TransferBatchArgs._to (Event.args event);
        id := toString i;
        amount := amount |}.

(** Lines 186-196: [for (let idx in event._ids)] enumerates the indices of
    the event object's own [_ids]; over [undefined] it runs no iteration
    at all. *)
Definition batch_records (event : Event.t TransferBatchArgs.t)
    : result (list Transfer) :=
  match Event._ids event with
  | None => Ok []
  | Some own_ids => mapM (batch_record event) (seq 0 (length own_ids))
  end.

Definition getEventsInRange (erc_standard : option Z) (tokenContract : EventSource)
    (fromBlock toBlock : Z) : result (list Transfer) :=
  if bool_decide (erc_standard = Some 721) then
    events ← queryTransfer tokenContract fromBlock toBlock;
    Ok (map transfer_record events)
  else if bool_decide (erc_standard = Some 1155) then
    tsEvents ← queryTransferSingle tokenContract fromBlock toBlock;
    singles ← mapM single_record tsEvents;
    tbEvents ← queryTransferBatch tokenContract fromBlock toBlock;
    batches ← mapM batch_records tbEvents;
    Ok (singles ++ concat batches)
  else Ok [].

(** ** Ordering (lines 79-99) *)

(** The comparator handed to [Array.prototype.sort]. *)
Definition compare (a b : Transfer) : result Z :=
  if blockNumber a <? blockNumber b then Ok (-1)
  else if blockNumber a >? blockNumber b then Ok 1
  else if transactionIndex a <? transactionIndex b then Ok (-1)
  else if transactionIndex a >? transactionIndex b then Ok 1
  else if logIndex a <? logIndex b then Ok (-1)
  else if logIndex a >? logIndex b then Ok 1
  else Throw "This should never, ever happen".

(** [Array.prototype.sort] is the engine's: a stable comparison sort that
    passes on whatever the comparator throws.  It is modelled by a stable
    insertion sort that calls [compare] on the element being placed and
    the elements already in order.  Like every comparison sort it has to
    compare two records directly before it can put them next to each
    other, which is where two records with the same key meet the [throw]
    of the comparator. *)
Fixpoint sort_insert (x : Transfer) (sorted : list Transfer) : result (list Transfer) :=
  match sorted with
  | [] => Ok [x]
  | y :: rest =>
      c ← compare x y;
      if c <? 0 then Ok (x :: y :: rest)
      else rest' ← sort_insert x rest; Ok (y :: rest')
  end.

Fixpoint sort (records : list Transfer) : result (list Transfer) :=
  match records with
  | [] => Ok []
  | x :: rest => sorted ← sort rest; sort_insert x sorted
  end.

(** ** JavaScript numbers *)

(** The double nearest to an integer, ties to the even significand.  Up
    to 2^53 every integer is a double; above, with [k] the position of the
    leading bit, doubles are the multiples of [2^(k-52)]. *)
Definition round_to_double (z : Z) : Z :=
  let a := Z.abs z in
  if a <=? 2 ^ 53 then z
  else
    let ulp := 2 ^ (Z.log2 a - 52) in
    let q := a / ulp in
    let r := a mod ulp in
    let half := ulp / 2 in
    let q' :=
      if r <? half then q
      else if half <? r then q + 1
      else if Z.even q then q else q + 1 in
    Z.sgn z * (q' * ulp).

(** [x + y] and [x - y] on numbers that hold integers. *)
Definition number_add (x y : Z) : Z := round_to_double (x + y).
Definition number_sub (x y : Z) : Z := round_to_double (x - y).

(** ** Replay (lines 101-124) *)

Definition hasOwnProperty {V : Type} (o : gmap string V) (k : string) : bool :=
  bool_decide (is_Some (o !! k)).

(** Lines 105-107 and 115-117: give the owner an empty table when it has
    none. *)
Definition ensure_owner (ownerRecords : Ledger) (owner : string) : Ledger :=
  if hasOwnProperty ownerRecords owner then ownerRecords
  else <[owner := ∅]> ownerRecords.

(** Lines 105-113: the sender's side. *)
Definition debit (ownerRecords : Ledger) (transfer : Transfer) : Ledger :=
  let ownerRecords := ensure_owner ownerRecords (from transfer) in
  let holdings := default ∅ (ownerRecords !! from transfer) in
  if negb (hasOwnProperty holdings (id transfer)) then
    <[from transfer := <[id transfer := - amount transfer]> holdings]> ownerRecords
  else
    <[from transfer :=
        <[id transfer :=
            number_sub (default 0 (holdings !! id transfer)) (amount transfer)]>
          holdings]> ownerRecords.

(** Lines 115-123: the receiver's side. *)
Definition credit (ownerRecords : Ledger) (transfer : Transfer) : Ledger :=
  let ownerRecords := ensure_owner ownerRecords (to transfer) in
  let holdings := default ∅ (ownerRecords !! to transfer) in
  if negb (hasOwnProperty holdings (id transfer)) then
    <[to transfer := <[id transfer := amount transfer]> holdings]> ownerRecords
  else
    <[to transfer :=
        <[id transfer :=
            number_add (default 0 (holdings !! id transfer)) (amount transfer)]>
          holdings]> ownerRecords.

(** One pass of the [for ... of] loop body. *)
Definition replay_step (ownerRecords : Ledger) (transfer : Transfer) : Ledger :=
  credit (debit ownerRecords transfer) transfer.

(** The loop alone, run on whatever table it is given. *)
Definition replay_from (ownerRecords : Ledger) (transferRecords : list Transfer)
    : Ledger :=
  fold_left replay_step transferRecords ownerRecords.

(** Lines 102-124: [let ownerRecords = {}] and then the loop. *)
Definition replay (transferRecords : list Transfer) : Ledger :=
  let ownerRecords := ∅ in
  replay_from ownerRecords transferRecords.

(** The same lines as a step on the local variables of [main], for a
    scope in which [ownerRecords] may already hold a table: the
    declaration of line 102 binds a fresh empty table, the loop then
    updates it once per record, and [transferRecords] is only read. *)
Record Locals := {
  transferRecords : list Transfer;
  ownerRecords : Ledger
}.

Definition set_ownerRecords (σ : Locals) (table : Ledger) : Locals :=
  {| transferRecords := transferRecords σ; ownerRecords := table |}.

Definition replay_stage (σ : Locals) : Locals :=
  let σ := set_ownerRecords σ ∅ in
  fold_left
    (λ σ transfer, set_ownerRecords σ (replay_step (ownerRecords σ) transfer))
    (transferRecords σ) σ.

(** ** The whole run *)

(** What a run leaves behind. *)
Record Outcome := {
  stderr : list string;
  dispatched : list (list Chunk);
  written : option Ledger;
  exit_status : Z
}.

(** [process.exit(code)]: without an argument the status is that of a
    successful run. *)
Definition process_exit (code : option Z) : Z := default 0 code.

(** [main] (lines 42-129): the groups dispatched, and the table written
    or the error thrown. *)
Definition main (bs : Z) (cfg : Config) (tokenContract : EventSource)
    : option (list (list Chunk) * result Ledger) :=
  match fetch bs (BLOCK_FROM cfg) (BLOCK_TO cfg)
          (getEventsInRange (ERC_STANDARD cfg) tokenContract) with
  | None => None
  | Some (groups, r) =>
      Some (groups,
            transferRecords ← r;
            sorted ← sort transferRecords;
            Ok (replay sorted))
  end.

(** Lines 20-38: the checks made before [main] is called.  [Some msg] is
    the message printed before [process.exit()]. *)
Definition validation (cfg : Config) : option string :=
  match TOKEN_CONTRACT_ADDRESS cfg with
  | None => Some "Invalid Token Contract Address"
  | Some a =>
      if bool_decide (a = "" ∨ String.length a ≠ 42%nat)
      then Some "Invalid Token Contract Address"
      else
        match ERC_STANDARD cfg with
        | None => Some "Invalid Token ERC Standard"
        | Some erc =>
            if bool_decide (erc = 0 ∨ erc ∉ [20; 721; 1155])
            then Some "Invalid Token ERC Standard"
            else if bool_decide (erc = 20) then Some "Not currently supported"
            else None
        end
  end.

(** The script from top to bottom, with window size [bs]. *)
Definition run (bs : Z) (cfg : Config) (tokenContract : EventSource)
    : option Outcome :=
  match validation cfg with
  | Some msg =>
      Some {| stderr := [msg]; dispatched := []; written := None;
              exit_status := process_exit None |}
  | None =>
      match main bs cfg tokenContract with
      | None => None
      | Some (groups, Throw error) =>
          Some {| stderr := [error]; dispatched := groups; written := None;
                  exit_status := process_exit (Some 1) |}
      | Some (groups, Ok ownerRecords) =>
          Some {| stderr := []; dispatched := groups;
                  written := Some ownerRecords;
                  exit_status := process_exit (Some 0) |}
      end
  end.

Definition program : Config → EventSource → option Outcome := run BLOCK_SIZE.

(** The run with the steps of the script that [run] takes to succeed:
    reading and parsing the ABI of a standard (lines 30, 34 and 37, at
    top level, where an exception is uncaught: node reports it on the
    error stream and exits with status 1), building the provider and the
    contract (lines 45-46) and writing the output file (line 127), both
    inside [main], whose rejection is reported at line 209.  Each field
    is the exception of its step, if the step throws.  An entry of
    [stderr] is one report, whatever the number of lines it takes.  The
    modules of lines 1-6 are taken to load. *)
Record Files := {
  read_abi : Z → option string;
  setup : option string;
  write_output : option string
}.

Definition uncaught (error : string) : Outcome :=
  {| stderr := [error]; dispatched := []; written := None; exit_status := 1 |}.

Definition script (files : Files) (cfg : Config) (tokenContract : EventSource)
    : option Outcome :=
  match TOKEN_CONTRACT_ADDRESS cfg with
  | None => program cfg tokenContract
  | Some a =>
      if bool_decide (a = "" ∨ String.length a ≠ 42%nat)
      then program cfg tokenContract
      else
        match ERC_STANDARD cfg with
        | None => program cfg tokenContract
        | Some erc =>
            if bool_decide (erc = 0 ∨ erc ∉ [20; 721; 1155])
            then program cfg tokenContract
            else
              match read_abi files erc with
              | Some error => Some (uncaught error)
              | None =>
                  if bool_decide (erc = 20) then program cfg tokenContract
                  else
                    match setup files with
                    | Some error =>
                        Some {| stderr := [error]; dispatched := [];
                                written := None;
                                exit_status := process_exit (Some 1) |}
                    | None =>
                        out ← program cfg tokenContract;
                        match written out, write_output files with
                        | Some _, Some error =>
                            Some {| stderr := [error];
                                    dispatched := dispatched out;
                                    written := None;
                                    exit_status := process_exit (Some 1) |}
                        | _, _ => Some out
                        end
                  end
              end
        end
  end.

(** The shape of an outcome: status 0 or 1, at most one report, a table
    exactly when there is no report, and no table with status 1. *)
Definition well_shaped (out : Outcome) : Prop :=
  (exit_status out = 0 ∨ exit_status out = 1) ∧
  (stderr out = [] ∨ ∃ report, stderr out = [report]) ∧
  (is_Some (written out) ↔ stderr out = []) ∧
  (exit_status out = 1 → written out = None).

(** ** Observations on a ledger *)

(** The entry of an owner and a token id, when there is one. *)
Definition entry (ownerRecords : Ledger) (owner tokenId : string) : option Z :=
  holdings ← ownerRecords !! owner; holdings !! tokenId.

(** The balance an entry stands for: zero when there is none. *)
Definition balance (ownerRecords : Ledger) (owner tokenId : string) : Z :=
  default 0 (entry ownerRecords owner tokenId).

(** Sum of the balances of one token id over all owners. *)
Definition asset_total (ownerRecords : Ledger) (tokenId : string) : Z :=
  map_fold (λ _ (holdings : gmap string Z) acc, acc + default 0 (holdings !! tokenId))
    0 ownerRecords.

(** The address that stands for mint and burn. *)
Definition ZERO_ADDRESS : string := "0x0000000000000000000000000000000000000000".

(** Both sides of a transfer set one entry, making the owner's table on
    the way: [set_entry] is that update, [debited] and [credited] are the
    values lines 110/112 and 120/122 store. *)
Definition set_entry (ownerRecords : Ledger) (owner tokenId : string) (value : Z)
    : Ledger :=
  <[owner := <[tokenId := value]> (default ∅ (ownerRecords !! owner))]>
    ownerRecords.

Definition debited (ownerRecords : Ledger) (transfer : Transfer) : Z :=
  match entry ownerRecords (from transfer) (id transfer) with
  | None => - amount transfer
  | Some v => number_sub v (amount transfer)
  end.

Definition credited (ownerRecords : Ledger) (transfer : Transfer) : Z :=
  match entry ownerRecords (to transfer) (id transfer) with
  | None => amount transfer
  | Some v => number_add v (amount transfer)
  end.

(** The ordering key of a record and its lexicographic order. *)
Definition key (t : Transfer) : Z * Z * Z :=
  (blockNumber t, transactionIndex t, logIndex t).

Definition key_lt (a b : Transfer) : Prop :=
  blockNumber a < blockNumber b ∨
  (blockNumber a = blockNumber b ∧
   (transactionIndex a < transactionIndex b ∨
    (transactionIndex a = transactionIndex b ∧ logIndex a < logIndex b))).

Definition key_le (a b : Transfer) : Prop := key_lt a b ∨ key a = key b.

(** ** Observations on the fetch *)

(** [m] windows in a row, the first one [(fromBlock, toBlock)], each later
    one starting right after its predecessor and ending [bs] blocks after
    it. *)
Fixpoint windows (bs : Z) (m : nat) (fromBlock toBlock : Z) : list Chunk :=
  match m with
  | O => []
  | S m' => (fromBlock, toBlock) :: windows bs m' (toBlock + 1) (toBlock + bs)
  end.

(** The window number [i] of a walk that starts at [block_from]: the first
    one holds [bs + 1] blocks, every later one [bs]. *)
Definition window (bs block_from : Z) (i : nat) : Chunk :=
  (block_from + Z.of_nat i * bs + (if decide (i = O) then 0 else 1),
   block_from + (Z.of_nat i + 1) * bs).

Definition in_chunk (b : Z) (c : Chunk) : Prop := c.1 ≤ b ≤ c.2.

(** Number of chunks of [chunks] that hold block [b]. *)
Definition times_queried (chunks : list Chunk) (b : Z) : nat :=
  length (filter (in_chunk b) chunks).

(** Quotient rounded up, for a positive divisor. *)
Definition ceil_div (a b : Z) : Z := (a + b - 1) / b.

(** What the event loop sees of the fetch: the calls of [getEventsInRange]
    in order, and the points where [main] resumes from
    [await Promise.all]. *)
Inductive Step :=
| Dispatch (c : Chunk)
| AwaitAll.

Definition trace (groups : list (list Chunk)) : list Step :=
  concat (map (λ g, map Dispatch g ++ [AwaitAll]) groups).

(** Calls that may still be in flight after a trace that began with [n]
    of them: [main] resumes only when the whole group has been answered,
    and every call before that is counted as still in flight. *)
Definition in_flight (n : nat) (tr : list Step) : nat :=
  fold_left (λ n s, match s with Dispatch _ => S n | AwaitAll => O end) tr n.

Definition outstanding (tr : list Step) : nat := in_flight O tr.

(** What holds of the groups a fetch dispatched: together they are windows
    in a row that end before [block_to]; a group holds between 1 and 11
    of them, and 11 unless it is the last. *)
Definition well_grouped (bs block_from block_to : Z) (groups : list (list Chunk))
    : Prop :=
  (∃ K : nat,
     concat groups = windows bs K block_from (block_from + bs) ∧
     (K = O ∨ block_from + Z.of_nat K * bs < block_to)) ∧
  Forall (λ g, (1 ≤ length g ≤ 11)%nat) groups ∧
  (∀ i g, groups !! i = Some g → (S i < length groups)%nat →
     length g = 11%nat).

(** A query of the chunk [c] is rejected by the contract handle. *)
Definition query_fails (erc_standard : option Z) (tokenContract : EventSource)
    (c : Chunk) : Prop :=
  (erc_standard = Some 721 ∧ ∃ e, queryTransfer tokenContract c.1 c.2 = Throw e) ∨
  (erc_standard = Some 1155 ∧
   ((∃ e, queryTransferSingle tokenContract c.1 c.2 = Throw e) ∨
    (∃ e, queryTransferBatch tokenContract c.1 c.2 = Throw e))).

(** ** Sample inputs *)

(** A well-formed contract address (42 characters). *)
Definition sample_address : string := "0x06012c8cf97BEaD5deAe237070F9587f8E7A266d".

(** A contract that emitted nothing. *)
Definition quiet_contract : EventSource :=
  {| queryTransfer := λ _ _, Ok [];
     queryTransferSingle := λ _ _, Ok [];
     queryTransferBatch := λ _ _, Ok [] |}.

(** A node that rejects the query of the window starting at block 1251. *)
Definition flaky_contract : EventSource :=
  {| queryTransfer := λ fromBlock _,
       if fromBlock =? 1251 then Throw "timeout" else Ok [];
     queryTransferSingle := λ _ _, Ok [];
     queryTransferBatch := λ _ _, Ok [] |}.

(** A batch event as the provider library decodes it: ids 1 and 2 with
    amounts 3 and 5, sent from [0xX] to [0xY]. *)
Definition sample_batch_event : Event.t TransferBatchArgs.t :=
  {| Event.blockNumber := 100; Event.transactionIndex := 2; Event.logIndex := 7;
     Event.args := {| TransferBatchArgs._from := "0xX";
                      TransferBatchArgs._to := "0xY";
                      TransferBatchArgs._ids := [1; 2];
                      TransferBatchArgs._amounts := [3; 5] |};
     Event._ids := None |}.

(** A multi-asset contract whose only event is that batch event, in block
    100. *)
Definition batch_contract : EventSource :=
  {| queryTransfer := λ _ _, Ok [];
     queryTransferSingle := λ _ _, Ok [];
     queryTransferBatch := λ fromBlock toBlock,
       if (fromBlock <=? 100) && (100 <=? toBlock)
       then Ok [sample_batch_event] else Ok [] |}.

Definition sample_config (erc from_block to_block : Z) : Config :=
  {| TOKEN_CONTRACT_ADDRESS := Some sample_address;
     ERC_STANDARD := Some erc;
     BLOCK_FROM := from_block;
     BLOCK_TO := to_block |}.

(** ** Observations on record lists *)

(** What one record moves on the balance of [owner] for [tokenId]: the
    amount in when the owner receives, the amount out when it sends. *)
Definition delta (transfer : Transfer) (owner tokenId : string) : Z :=
  if decide (id transfer = tokenId) then
    (if decide (to transfer = owner) then amount transfer else 0)
    - (if decide (from transfer = owner) then amount transfer else 0)
  else 0.

(** Net amount a list of records moves to [owner] for [tokenId]. *)
Definition net (records : list Transfer) (owner tokenId : string) : Z :=
  foldr (λ transfer acc, delta transfer owner tokenId + acc) 0 records.

(** The record names [owner] as sender or receiver of [tokenId]. *)
Definition touches (transfer : Transfer) (owner tokenId : string) : Prop :=
  id transfer = tokenId ∧ (from transfer = owner ∨ to transfer = owner).

#[global] Instance touches_dec transfer owner tokenId :
  Decision (touches transfer owner tokenId).
Proof. unfold touches. apply _. Defined.

(** Sum of the sizes of the amounts moved in or out of one entry, of one
    token id, and of all records.  While such a sum is at most
    [MAX_SAFE_INTEGER] no balance it bounds has been rounded. *)
Definition volume (records : list Transfer) (owner tokenId : string) : Z :=
  foldr (λ transfer acc,
           (if decide (touches transfer owner tokenId)
            then Z.abs (amount transfer) else 0) + acc) 0 records.

Definition asset_volume (records : list Transfer) (tokenId : string) : Z :=
  foldr (λ transfer acc,
           (if decide (id transfer = tokenId)
            then Z.abs (amount transfer) else 0) + acc) 0 records.

Definition total_volume (records : list Transfer) : Z :=
  foldr (λ transfer acc, Z.abs (amount transfer) + acc) 0 records.

(** ** The output file (line 127) *)

(** The path handed to [fs.writeFileSync]: the script's directory, the
    contract address and the end block in decimal. *)
Definition output_path (dirname address : string) (block_to : Z) : string :=
  dirname +:+ "/output/" +:+ address +:+ "-" +:+ toString block_to +:+ ".json".

(** The amount of a [TransferSingle] event fits a JavaScript integer. *)
Definition safe_amount (event : Event.t TransferSingleArgs.t) : Prop :=
  Z.abs (TransferSingleArgs._amount (Event.args event)) ≤ MAX_SAFE_INTEGER.

(** ** Further sample inputs *)

(** A single-transfer event of a multi-asset contract: 3 units of id 7. *)
Definition sample_single_event : Event.t TransferSingleArgs.t :=
  {| Event.blockNumber := 100; Event.transactionIndex := 2; Event.logIndex := 6;
     Event.args := {| TransferSingleArgs._from := "0xX";
                      TransferSingleArgs._to := "0xY";
                      TransferSingleArgs._id := 7;
                      TransferSingleArgs._amount := 3 |};
     Event._ids := None |}.

(** A multi-asset contract with that event and the batch event above,
    both in block 100. *)
Definition multi_asset_contract : EventSource :=
  {| queryTransfer := λ _ _, Ok [];
     queryTransferSingle := λ fromBlock toBlock,
       if (fromBlock <=? 100) && (100 <=? toBlock)
       then Ok [sample_single_event] else Ok [];
     queryTransferBatch := λ fromBlock toBlock,
       if (fromBlock <=? 100) && (100 <=? toBlock)
       then Ok [sample_batch_event] else Ok [] |}.

(** A node that rejects the query of the window starting at block 4001,
    which falls in the second group of a walk from block 1000. *)
Definition late_flaky_contract : EventSource :=
  {| queryTransfer := λ fromBlock _,
       if fromBlock =? 4001 then Throw "timeout" else Ok [];
     queryTransferSingle := λ _ _, Ok [];
     queryTransferBatch := λ _ _, Ok [] |}.

(** * Properties *)

Section Numbers.
Lemma round_to_double_exact z : Z.abs z ≤ 2 ^ 53 → round_to_double z = z.
Proof.
  intros H. unfold round_to_double. cbv zeta.
  by rewrite (proj2 (Z.leb_le _ _) H).
Qed.

Lemma safe_is_exact z : Z.abs z ≤ MAX_SAFE_INTEGER → round_to_double z = z.
Proof.
  intros H. apply round_to_double_exact.
  unfold MAX_SAFE_INTEGER in H. change (2 ^ 53) with 9007199254740992. lia.
Qed.

Lemma number_add_safe x y :
  Z.abs (x + y) ≤ MAX_SAFE_INTEGER → number_add x y = x + y.
Proof. apply safe_is_exact. Qed.

Lemma number_sub_safe x y :
  Z.abs (x - y) ≤ MAX_SAFE_INTEGER → number_sub x y = x - y.
Proof. apply safe_is_exact. Qed.
End Numbers.

Section LedgerFacts.
Implicit Types (L : Ledger) (t : Transfer) (o i : string) (v : Z).

Lemma hasOwnProperty_Some {V} (m : gmap string V) k x :
  m !! k = Some x → hasOwnProperty m k = true.
Proof. intros H. apply bool_decide_eq_true_2. by exists x. Qed.

Lemma hasOwnProperty_None {V} (m : gmap string V) k :
  m !! k = None → hasOwnProperty m k = false.
Proof. intros H. apply bool_decide_eq_false_2. intros [x Hx]. congruence. Qed.

Lemma debit_set_entry L t :
  debit L t = set_entry L (from t) (id t) (debited L t).
Proof.
  unfold debit, set_entry, debited, ensure_owner, entry.
  destruct (L !! from t) as [h|] eqn:Ho; simpl.
  - rewrite (hasOwnProperty_Some _ _ _ Ho), Ho. simpl.
    destruct (h !! id t) as [v|] eqn:Hi; simpl.
    + by rewrite (hasOwnProperty_Some _ _ _ Hi).
    + by rewrite (hasOwnProperty_None _ _ Hi).
  - rewrite (hasOwnProperty_None _ _ Ho), lookup_insert_eq. simpl.
    rewrite (hasOwnProperty_None (V:=Z) ∅) by apply lookup_empty. simpl.
    by rewrite insert_insert_eq.
Qed.

Lemma credit_set_entry L t :
  credit L t = set_entry L (to t) (id t) (credited L t).
Proof.
  unfold credit, set_entry, credited, ensure_owner, entry.
  destruct (L !! to t) as [h|] eqn:Ho; simpl.
  - rewrite (hasOwnProperty_Some _ _ _ Ho), Ho. simpl.
    destruct (h !! id t) as [v|] eqn:Hi; simpl.
    + by rewrite (hasOwnProperty_Some _ _ _ Hi).
    + by rewrite (hasOwnProperty_None _ _ Hi).
  - rewrite (hasOwnProperty_None _ _ Ho), lookup_insert_eq. simpl.
    rewrite (hasOwnProperty_None (V:=Z) ∅) by apply lookup_empty. simpl.
    by rewrite insert_insert_eq.
Qed.

Lemma entry_set_entry_eq L o i v : entry (set_entry L o i v) o i = Some v.
Proof.
  unfold entry, set_entry. rewrite lookup_insert_eq. simpl.
  by rewrite lookup_insert_eq.
Qed.

Lemma entry_set_entry_ne L o i v o' i' :
  o' ≠ o ∨ i' ≠ i → entry (set_entry L o i v) o' i' = entry L o' i'.
Proof.
  intros Hne. unfold entry, set_entry.
  destruct (decide (o' = o)) as [->|Ho].
  - destruct Hne as [?|Hi]; [done|].
    rewrite lookup_insert_eq. simpl. rewrite lookup_insert_ne by done.
    destruct (L !! o); simpl; [done|]. by rewrite lookup_empty.
  - by rewrite lookup_insert_ne.
Qed.

Lemma lookup_set_entry_ne L o i v o' :
  o' ≠ o → set_entry L o i v !! o' = L !! o'.
Proof. intros. unfold set_entry. by rewrite lookup_insert_ne. Qed.

Lemma lookup_set_entry_is_Some L o i v o' :
  is_Some (set_entry L o i v !! o') ↔ is_Some (L !! o') ∨ o' = o.
Proof.
  destruct (decide (o' = o)) as [->|Hne].
  - unfold set_entry. rewrite lookup_insert_eq. split; [by right | eauto].
  - rewrite lookup_set_entry_ne by done. tauto.
Qed.

Lemma entry_set_entry_is_Some L o i v o' i' :
  is_Some (entry (set_entry L o i v) o' i') ↔
  is_Some (entry L o' i') ∨ (o' = o ∧ i' = i).
Proof.
  destruct (decide (o' = o ∧ i' = i)) as [[-> ->]|Hne].
  - rewrite entry_set_entry_eq. split; [by right | eauto].
  - rewrite entry_set_entry_ne; [tauto|].
    destruct (decide (o' = o)); [right|left]; [|done].
    intros ->. by apply Hne.
Qed.

Lemma balance_set_entry L o i v o' i' :
  balance (set_entry L o i v) o' i' =
  if decide (o' = o ∧ i' = i) then v else balance L o' i'.
Proof.
  unfold balance. case_decide as Hcase.
  - destruct Hcase as [-> ->]. by rewrite entry_set_entry_eq.
  - rewrite entry_set_entry_ne; [done|].
    destruct (decide (o' = o)); [right|left]; [|done].
    intros ->. by apply Hcase.
Qed.

Lemma entry_lookup L o (h : gmap string Z) i :
  L !! o = Some h → entry L o i = h !! i.
Proof. intros H. unfold entry. by rewrite H. Qed.

(** What the two sides of a transfer store, as long as the value stored
    is within the safe range. *)
Lemma balance_debit L t o i :
  (∀ v, o = from t → i = id t → entry L o i = Some v →
        Z.abs (v - amount t) ≤ MAX_SAFE_INTEGER) →
  balance (debit L t) o i =
  balance L o i - (if decide (o = from t ∧ i = id t) then amount t else 0).
Proof.
  intros Hsafe. rewrite debit_set_entry, balance_set_entry.
  case_decide as Hcase; [|lia]. destruct Hcase as [-> ->].
  unfold debited, balance.
  destruct (entry L (from t) (id t)) as [v|] eqn:Hv; simpl; [|lia].
  by rewrite number_sub_safe by (by apply Hsafe).
Qed.

Lemma balance_credit L t o i :
  (∀ v, o = to t → i = id t → entry L o i = Some v →
        Z.abs (v + amount t) ≤ MAX_SAFE_INTEGER) →
  balance (credit L t) o i =
  balance L o i + (if decide (o = to t ∧ i = id t) then amount t else 0).
Proof.
  intros Hsafe. rewrite credit_set_entry, balance_set_entry.
  case_decide as Hcase; [|lia]. destruct Hcase as [-> ->].
  unfold credited, balance.
  destruct (entry L (to t) (id t)) as [v|] eqn:Hv; simpl; [|lia].
  by rewrite number_add_safe by (by apply Hsafe).
Qed.

Lemma entry_balance L o i v : entry L o i = Some v → balance L o i = v.
Proof. intros H. unfold balance. by rewrite H. Qed.

(** One record moves an entry by [delta], as long as the balance before
    and the amount together stay within the safe range. *)
Lemma balance_replay_step L t o i :
  (touches t o i →
   Z.abs (balance L o i) + Z.abs (amount t) ≤ MAX_SAFE_INTEGER) →
  balance (replay_step L t) o i = balance L o i + delta t o i.
Proof.
  intros Hsafe. unfold replay_step.
  assert (Hd : balance (debit L t) o i =
               balance L o i
               - (if decide (o = from t ∧ i = id t) then amount t else 0)).
  { apply balance_debit. intros v -> -> Hv.
    apply entry_balance in Hv. rewrite Hv in Hsafe.
    specialize (Hsafe (conj eq_refl (or_introl eq_refl))). lia. }
  rewrite balance_credit.
  - rewrite Hd. unfold delta.
    repeat case_decide; try lia; exfalso; intuition (subst; eauto).
  - intros v Ho Hi Hv. apply entry_balance in Hv. rewrite Hd in Hv. subst o i.
    specialize (Hsafe (conj eq_refl (or_intror eq_refl))).
    case_decide; lia.
Qed.

Lemma delta_bound t o i :
  Z.abs (delta t o i) ≤ if decide (touches t o i) then Z.abs (amount t) else 0.
Proof.
  unfold delta, touches.
  repeat case_decide; try lia; exfalso; intuition (subst; eauto).
Qed.
End LedgerFacts.

Section Volumes.
Implicit Types (t : Transfer) (l : list Transfer) (o i : string).

Lemma volume_nonneg l o i : 0 ≤ volume l o i.
Proof. induction l as [|t l IH]; simpl; [done|]. case_decide; lia. Qed.

Lemma asset_volume_nonneg l i : 0 ≤ asset_volume l i.
Proof. induction l as [|t l IH]; simpl; [done|]. case_decide; lia. Qed.

Lemma volume_le_asset_volume l o i : volume l o i ≤ asset_volume l i.
Proof.
  induction l as [|t l IH]; simpl; [done|]. unfold touches.
  repeat case_decide; try lia; exfalso; intuition (subst; eauto).
Qed.

Lemma asset_volume_le_total l i : asset_volume l i ≤ total_volume l.
Proof. induction l as [|t l IH]; simpl; [done|]. case_decide; lia. Qed.

Lemma volume_le_total l o i : volume l o i ≤ total_volume l.
Proof.
  etrans; [apply volume_le_asset_volume | apply asset_volume_le_total].
Qed.
End Volumes.

Section Conservation.
Implicit Types (L : Ledger) (t : Transfer) (l : list Transfer) (o i : string).

Lemma asset_total_empty i : asset_total ∅ i = 0.
Proof. unfold asset_total. by rewrite map_fold_empty. Qed.

Lemma asset_total_insert_fresh L o (h : gmap string Z) i :
  L !! o = None →
  asset_total (<[o := h]> L) i = asset_total L i + default 0 (h !! i).
Proof.
  intros Hfresh. unfold asset_total.
  rewrite map_fold_insert_L; [done | intros; lia | done].
Qed.

(** Replacing an owner's table moves the total by the difference of the
    two balances. *)
Lemma asset_total_insert L o (h : gmap string Z) i :
  asset_total (<[o := h]> L) i =
  asset_total L i - balance L o i + default 0 (h !! i).
Proof.
  unfold balance, entry.
  destruct (L !! o) as [h0|] eqn:Ho; simpl.
  - rewrite <- (insert_delete_id L o h0 Ho) at 2.
    rewrite <- (insert_delete_eq L o h).
    rewrite !asset_total_insert_fresh by apply lookup_delete_eq. lia.
  - rewrite asset_total_insert_fresh by done. lia.
Qed.

Lemma asset_total_set_entry L o i (v : Z) i' :
  asset_total (set_entry L o i v) i' =
  asset_total L i' - balance L o i' + balance (set_entry L o i v) o i'.
Proof.
  unfold balance at 2. unfold entry, set_entry.
  by rewrite asset_total_insert, lookup_insert_eq.
Qed.

Lemma asset_total_debit L t i :
  asset_total (debit L t) i =
  asset_total L i - balance L (from t) i + balance (debit L t) (from t) i.
Proof. rewrite debit_set_entry. apply asset_total_set_entry. Qed.

Lemma asset_total_credit L t i :
  asset_total (credit L t) i =
  asset_total L i - balance L (to t) i + balance (credit L t) (to t) i.
Proof. rewrite credit_set_entry. apply asset_total_set_entry. Qed.

(** One record keeps the total of every token id whose two entries it
    touches stay within the safe range. *)
Lemma asset_total_replay_step L t i :
  (∀ o, touches t o i →
        Z.abs (balance L o i) + Z.abs (amount t) ≤ MAX_SAFE_INTEGER) →
  asset_total (replay_step L t) i = asset_total L i.
Proof.
  intros Hsafe.
  pose proof (balance_replay_step L t (to t) i (Hsafe (to t))) as Hto.
  unfold replay_step in *.
  rewrite asset_total_credit, asset_total_debit, Hto.
  assert (Hd : ∀ o, balance (debit L t) o i =
               balance L o i
               - (if decide (o = from t ∧ i = id t) then amount t else 0)).
  { intros o. apply balance_debit. intros v -> -> Hv.
    apply entry_balance in Hv.
    specialize (Hsafe (from t) (conj eq_refl (or_introl eq_refl))). lia. }
  rewrite !Hd. unfold delta.
  repeat case_decide; try lia; exfalso; intuition (subst; eauto).
Qed.

Lemma asset_total_replay_from l L i :
  (∀ o, Z.abs (balance L o i) + volume l o i ≤ MAX_SAFE_INTEGER) →
  asset_total (replay_from L l) i = asset_total L i.
Proof.
  revert L. induction l as [|t l IH]; intros L Hsafe; [done|].
  unfold replay_from in *. cbn [fold_left].
  assert (Hstep : ∀ o, touches t o i →
            Z.abs (balance L o i) + Z.abs (amount t) ≤ MAX_SAFE_INTEGER).
  { intros o Ht. specialize (Hsafe o). simpl in Hsafe.
    pose proof (volume_nonneg l o i) as Hpos.
    rewrite decide_True in Hsafe by done. lia. }
  rewrite IH.
  - by apply asset_total_replay_step.
  - intros o. rewrite balance_replay_step by auto.
    pose proof (delta_bound t o i) as Hdelta.
    specialize (Hsafe o). simpl in Hsafe.
    case_decide; lia.
Qed.

Lemma balance_empty o i : balance ∅ o i = 0.
Proof. unfold balance, entry. by rewrite lookup_empty. Qed.

(** Conservation for a token id of which no owner moves more than the
    safe range holds, zero address or not. *)
Lemma asset_total_replay l i :
  (∀ o, volume l o i ≤ MAX_SAFE_INTEGER) → asset_total (replay l) i = 0.
Proof.
  intros Hsafe. unfold replay.
  rewrite asset_total_replay_from, asset_total_empty; [done|].
  intros o. rewrite balance_empty. specialize (Hsafe o). simpl. lia.
Qed.

Lemma volume_safe_of_total l :
  total_volume l ≤ MAX_SAFE_INTEGER → ∀ o i, volume l o i ≤ MAX_SAFE_INTEGER.
Proof. intros Hsafe o i. pose proof (volume_le_total l o i). lia. Qed.
End Conservation.

(** C7, as the code has it.  When no record of the input has the zero
    address as its sender or its receiver, every token id of which no
    owner sends and receives more than 2^53 - 1 units in all has, in the
    ledger built by the replay, balances that add up to zero over all
    owners. *)
Theorem replay_conserves_assets (transferRecords : list Transfer) (assetId : string) :
  Forall (λ t, from t ≠ ZERO_ADDRESS ∧ to t ≠ ZERO_ADDRESS) transferRecords →
  (∀ owner, volume transferRecords owner assetId ≤ MAX_SAFE_INTEGER) →
  asset_total (replay transferRecords) assetId = 0.
Proof. intros _. apply asset_total_replay. Qed.

Lemma replay_conserves_assets_witness :
  let l := [ {| blockNumber := 10; transactionIndex := 0; logIndex := 0;
                from := "0xA"; to := "0xB"; id := "7"; amount := 2 |};
             {| blockNumber := 11; transactionIndex := 3; logIndex := 1;
                from := "0xB"; to := "0xC"; id := "7"; amount := 1 |} ] in
  Forall (λ t, from t ≠ ZERO_ADDRESS ∧ to t ≠ ZERO_ADDRESS) l ∧
  total_volume l ≤ MAX_SAFE_INTEGER ∧
  asset_total (replay l) "7" = 0.
Proof.
  intros l.
  assert (Hl : Forall (λ t, from t ≠ ZERO_ADDRESS ∧ to t ≠ ZERO_ADDRESS) l)
    by (repeat constructor; discriminate).
  assert (Hv : total_volume l ≤ MAX_SAFE_INTEGER) by (by vm_compute).
  exact (conj Hl (conj Hv
    (replay_conserves_assets l "7" Hl (λ o, volume_safe_of_total l Hv o "7")))).
Defined.

(** C7 fails as stated once a balance is rounded: two transfers of
    2^53 - 1 and one of 1, none of them with the zero address, leave
    balances of -2^53, -(2^53 - 1) and 2^54, which add up to 1. *)
Lemma replay_rounding_breaks_conservation :
  let l := [ {| blockNumber := 10; transactionIndex := 0; logIndex := 0;
                from := "0xA"; to := "0xC"; id := "7";
                amount := 9007199254740991 |};
             {| blockNumber := 11; transactionIndex := 0; logIndex := 0;
                from := "0xB"; to := "0xC"; id := "7";
                amount := 9007199254740991 |};
             {| blockNumber := 12; transactionIndex := 0; logIndex := 0;
                from := "0xA"; to := "0xC"; id := "7"; amount := 1 |} ] in
  Forall (λ t, from t ≠ ZERO_ADDRESS ∧ to t ≠ ZERO_ADDRESS) l ∧
  Forall (λ t, toNumber (amount t) = Ok (amount t)) l ∧
  balance (replay l) "0xA" "7" = -9007199254740992 ∧
  balance (replay l) "0xB" "7" = -9007199254740991 ∧
  balance (replay l) "0xC" "7" = 18014398509481984 ∧
  asset_total (replay l) "7" = 1.
Proof.
  intros l. split; [repeat constructor; discriminate|].
  split; [by repeat constructor|]. by vm_compute.
Qed.




Section Persistence.
Implicit Types (L : Ledger) (t : Transfer) (l : list Transfer) (o i : string).

Lemma entry_replay_step_is_Some L t o i :
  is_Some (entry (replay_step L t) o i) ↔
  is_Some (entry L o i) ∨ touches t o i.
Proof.
  unfold replay_step.
  rewrite credit_set_entry, entry_set_entry_is_Some.
  rewrite debit_set_entry, entry_set_entry_is_Some. unfold touches.
  intuition (subst; auto).
Qed.

Lemma replay_step_keeps_entry L t o i :
  is_Some (entry L o i) → is_Some (entry (replay_step L t) o i).
Proof. intros H. apply entry_replay_step_is_Some. by left. Qed.

Lemma replay_from_keeps_entry l L o i :
  is_Some (entry L o i) → is_Some (entry (replay_from L l) o i).
Proof.
  revert L. induction l as [|t l IH]; intros L H; [done|].
  unfold replay_from in *. cbn [fold_left]. apply IH.
  by apply replay_step_keeps_entry.
Qed.

Lemma replay_app l1 l2 : replay (l1 ++ l2) = replay_from (replay l1) l2.
Proof. unfold replay, replay_from. apply fold_left_app. Qed.
End Persistence.

(** C10. The replay never removes an entry: an entry present after a
    prefix of the records is still present after any further records.
    The final ledger can therefore hold an explicit 0, as for the owner
    in the middle of a transfer in followed by a transfer out, next to
    owners that have no entry at all; both stand for a balance of 0. *)
Theorem replay_keeps_entries :
  (∀ (l1 l2 : list Transfer) (owner tokenId : string),
     is_Some (entry (replay l1) owner tokenId) →
     is_Some (entry (replay (l1 ++ l2)) owner tokenId)) ∧
  (let l := [ {| blockNumber := 1; transactionIndex := 0; logIndex := 0;
                 from := "0xA"; to := "0xB"; id := "7"; amount := 1 |};
              {| blockNumber := 2; transactionIndex := 0; logIndex := 0;
                 from := "0xB"; to := "0xC"; id := "7"; amount := 1 |} ] in
   entry (replay l) "0xB" "7" = Some 0 ∧ balance (replay l) "0xB" "7" = 0 ∧
   entry (replay l) "0xD" "7" = None ∧ balance (replay l) "0xD" "7" = 0).
Proof.
  split.
  - intros l1 l2 owner tokenId H. rewrite replay_app.
    by apply replay_from_keeps_entry.
  - by vm_compute.
Qed.

Lemma replay_keeps_entries_witness :
  let l1 := [ {| blockNumber := 1; transactionIndex := 0; logIndex := 0;
                 from := "0xA"; to := "0xB"; id := "7"; amount := 1 |} ] in
  let l2 := [ {| blockNumber := 2; transactionIndex := 0; logIndex := 0;
                 from := "0xB"; to := "0xC"; id := "7"; amount := 1 |} ] in
  is_Some (entry (replay l1) "0xB" "7") ∧
  is_Some (entry (replay (l1 ++ l2)) "0xB" "7").
Proof.
  intros l1 l2.
  assert (H : is_Some (entry (replay l1) "0xB" "7")) by (by exists 1).
  exact (conj H (proj1 replay_keeps_entries l1 l2 "0xB" "7" H)).
Defined.

Section ReplayStage.
Implicit Types (σ : Locals) (l : list Transfer) (L : Ledger).

(** The loop on the local variables computes [replay_from] on the table
    and leaves the records alone. *)
Lemma replay_loop_locals l σ :
  fold_left
    (λ σ transfer, set_ownerRecords σ (replay_step (ownerRecords σ) transfer))
    l σ
  = set_ownerRecords σ (replay_from (ownerRecords σ) l).
Proof.
  revert σ. induction l as [|t l IH]; intros σ; simpl.
  - by destruct σ.
  - by rewrite IH.
Qed.

Lemma replay_stage_locals σ :
  replay_stage σ = set_ownerRecords σ (replay (transferRecords σ)).
Proof. unfold replay_stage. by rewrite replay_loop_locals. Qed.
End ReplayStage.

(** C6. The replay is a function of the record sequence alone: whatever
    table the scope held before, the stage ends with the table that a
    replay from the empty table gives, so two scopes with the same records
    end with identical tables; it leaves the records as they were, and
    running it again, any number of times, changes nothing. *)
Theorem replay_pure (σ : Locals) :
  ownerRecords (replay_stage σ) = replay (transferRecords σ) ∧
  transferRecords (replay_stage σ) = transferRecords σ ∧
  (∀ previous : Ledger,
     ownerRecords (replay_stage (set_ownerRecords σ previous))
       = ownerRecords (replay_stage σ)) ∧
  (∀ n : nat, Nat.iter (S n) replay_stage σ = replay_stage σ).
Proof.
  split; [|split; [|split]].
  - by rewrite replay_stage_locals.
  - by rewrite replay_stage_locals.
  - intros previous. by rewrite !replay_stage_locals.
  - intros n. induction n as [|n IH]; [done|].
    change (Nat.iter (S (S n)) replay_stage σ)
      with (replay_stage (Nat.iter (S n) replay_stage σ)).
    rewrite IH. by rewrite !replay_stage_locals.
Qed.

Section Sorting.
Implicit Types (a b x y : Transfer) (l s : list Transfer).

Lemma key_lt_trans a b c : key_lt a b → key_lt b c → key_lt a c.
Proof. unfold key_lt. lia. Qed.

Lemma key_lt_irrefl a b : key a = key b → ¬ key_lt a b.
Proof. unfold key, key_lt. intros [= ? ? ?]. lia. Qed.

(** What the comparator answers, by cases on the keys. *)
Lemma compare_spec a b :
  (key_lt a b ∧ compare a b = Ok (-1)) ∨
  (key_lt b a ∧ compare a b = Ok 1) ∨
  (key a = key b ∧ compare a b = Throw "This should never, ever happen").
Proof.
  unfold compare, key, key_lt.
  repeat (case_match; [first [left; split; [lia|done] | right; left; split; [lia|done]] |]).
  right; right. split; [f_equal; [f_equal|]; lia | done].
Qed.

Lemma sort_insert_ok x s :
  StronglySorted key_lt s → key x ∉ map key s →
  ∃ s', sort_insert x s = Ok s' ∧ s' ≡ₚ x :: s ∧ StronglySorted key_lt s'.
Proof.
  induction s as [|y s IH]; intros Hs Hx; simpl.
  - exists [x]. repeat split; [done|]. repeat constructor.
  - apply StronglySorted_inv in Hs as [Hs Hy].
    apply not_elem_of_cons in Hx as [Hxy Hx].
    destruct (compare_spec x y) as [[Hlt ->]|[[Hgt ->]|[Heq _]]]; simpl;
      [| |done].
    + exists (x :: y :: s). repeat split; [done|].
      constructor; [by constructor|]. constructor; [done|].
      eapply Forall_impl; [exact Hy|]. intros z Hz. by eapply key_lt_trans.
    + destruct (IH Hs Hx) as (s' & -> & Hp & Hs'). simpl.
      exists (y :: s'). repeat split.
      * rewrite Hp. apply Permutation_swap.
      * constructor; [done|]. rewrite Hp. by constructor.
Qed.

Lemma sort_insert_tie x s :
  StronglySorted key_lt s → key x ∈ map key s →
  sort_insert x s = Throw "This should never, ever happen".
Proof.
  induction s as [|y s IH]; intros Hs Hx; simpl.
  - by apply elem_of_nil in Hx.
  - apply StronglySorted_inv in Hs as [Hs Hy].
    destruct (compare_spec x y) as [[Hlt ->]|[[Hgt ->]|[Heq ->]]]; simpl;
      [| |done].
    + exfalso. apply elem_of_cons in Hx as [Hx|Hx].
      * by eapply key_lt_irrefl.
      * apply list_elem_of_fmap in Hx as (z & Hkz & Hz).
        rewrite Forall_forall in Hy. specialize (Hy z Hz).
        eapply (key_lt_irrefl x z); [done|]. by eapply key_lt_trans.
    + apply elem_of_cons in Hx as [Hx|Hx].
      * exfalso. by eapply (key_lt_irrefl y x).
      * by rewrite IH.
Qed.

(** The sort succeeds exactly on inputs whose keys are pairwise
    distinct. *)
Lemma sort_spec l :
  (NoDup (map key l) ∧
   ∃ s, sort l = Ok s ∧ s ≡ₚ l ∧ StronglySorted key_lt s) ∨
  (¬ NoDup (map key l) ∧ sort l = Throw "This should never, ever happen").
Proof.
  induction l as [|x l IH]; simpl.
  - left. split; [constructor|]. exists []. repeat split; constructor.
  - destruct IH as [(Hnd & s & -> & Hp & Hs)|[Hdup ->]]; simpl.
    + destruct (decide (key x ∈ map key l)) as [Hin|Hnin].
      * right. split; [rewrite NoDup_cons; tauto|].
        apply sort_insert_tie; [done|]. by rewrite Hp.
      * left. split; [by constructor|].
        destruct (sort_insert_ok x s Hs) as (s' & -> & Hp' & Hs').
        { by rewrite Hp. }
        exists s'. repeat split; [|done]. by rewrite Hp', Hp.
    + right. split; [|done]. rewrite NoDup_cons. tauto.
Qed.

Lemma StronglySorted_adjacent s i a b :
  StronglySorted key_lt s → s !! i = Some a → s !! S i = Some b → key_lt a b.
Proof.
  intros Hs. revert i. induction Hs as [|x s Hs IH Hx]; intros i Ha Hb; [done|].
  destruct i as [|i]; simpl in *.
  - injection Ha as ->. rewrite Forall_forall in Hx. apply Hx.
    by eapply list_elem_of_lookup_2.
  - by eapply IH.
Qed.
End Sorting.

(** C2, as the code has it.  On records whose keys are pairwise distinct
    the sort returns, its output is a rearrangement of the input and every
    adjacent pair of the output is in strictly increasing, hence
    non-decreasing, key order.  As soon as two records share a key the
    comparator throws and the sort returns nothing. *)
Theorem sort_distinct_keys (records : list Transfer) :
  (NoDup (map key records) →
   ∃ sorted, sort records = Ok sorted ∧ sorted ≡ₚ records ∧
     ∀ i a b, sorted !! i = Some a → sorted !! S i = Some b →
       key_lt a b ∧ key_le a b) ∧
  (¬ NoDup (map key records) →
   sort records = Throw "This should never, ever happen").
Proof.
  destruct (sort_spec records) as [(Hnd & s & Hsort & Hp & Hs)|[Hdup Hthrow]].
  - split; [|done]. intros _. exists s. repeat split; [done..| |].
    + by eapply StronglySorted_adjacent.
    + left. by eapply StronglySorted_adjacent.
  - split; [done|]. by intros _.
Qed.

Lemma sort_distinct_keys_witness :
  let l := [ {| blockNumber := 3; transactionIndex := 0; logIndex := 0;
                from := "0xA"; to := "0xB"; id := "1"; amount := 1 |};
             {| blockNumber := 2; transactionIndex := 5; logIndex := 1;
                from := "0xB"; to := "0xC"; id := "2"; amount := 1 |};
             {| blockNumber := 2; transactionIndex := 5; logIndex := 0;
                from := "0xC"; to := "0xA"; id := "3"; amount := 1 |} ] in
  NoDup (map key l) ∧
  ∃ sorted, sort l = Ok sorted ∧ sorted ≡ₚ l ∧
    ∀ i a b, sorted !! i = Some a → sorted !! S i = Some b →
      key_lt a b ∧ key_le a b.
Proof.
  intros l.
  assert (Hl : NoDup (map key l)) by (apply (bool_decide_unpack _); by vm_compute).
  exact (conj Hl (proj1 (sort_distinct_keys l) Hl)).
Defined.

(** C2 fails as stated: two records expanded from one batch event share
    their key, and sorting them throws. *)
Lemma sort_tie_throws :
  sort [ {| blockNumber := 100; transactionIndex := 2; logIndex := 7;
            from := "0xA"; to := "0xB"; id := "1"; amount := 3 |};
         {| blockNumber := 100; transactionIndex := 2; logIndex := 7;
            from := "0xA"; to := "0xB"; id := "2"; amount := 5 |} ]
  = Throw "This should never, ever happen".
Proof. reflexivity. Qed.

Section FetchFacts.
Variable bs : Z.
Variable block_to : Z.
Variable getEvents : Z → Z → result (list Transfer).
Hypothesis bs_pos : 1 ≤ bs.

Lemma batch_loop_S n fromBlock toBlock :
  batch_loop bs block_to (S n) fromBlock toBlock =
  if block_to =? Z.min block_to (toBlock + bs)
  then ([(fromBlock, toBlock)], (toBlock + 1, Z.min block_to (toBlock + bs)))
  else
    let '(promises, st) :=
      batch_loop bs block_to n (toBlock + 1) (Z.min block_to (toBlock + bs)) in
    ((fromBlock, toBlock) :: promises, st).
Proof. reflexivity. Qed.

(** The [for] loop pushes between one and [S n] windows in a row, all of
    them ending before [block_to]; it stops short of [S n] only when the
    next window would reach [block_to]. *)
Lemma batch_loop_spec n fromBlock toBlock :
  toBlock < block_to →
  ∃ m : nat,
    (1 ≤ m ≤ S n)%nat ∧
    batch_loop bs block_to (S n) fromBlock toBlock =
      (windows bs m fromBlock toBlock,
       (toBlock + (Z.of_nat m - 1) * bs + 1,
        Z.min block_to (toBlock + Z.of_nat m * bs))) ∧
    toBlock + (Z.of_nat m - 1) * bs < block_to ∧
    (m = S n ∨ block_to ≤ toBlock + Z.of_nat m * bs).
Proof.
  revert fromBlock toBlock.
  induction n as [|n IH]; intros fromBlock toBlock Hlt.
  - exists 1%nat. simpl. split; [lia|]. split.
    + destruct (block_to =? _); (f_equal; f_equal; [lia | f_equal; lia]).
    + split; [lia | by left].
  - rewrite batch_loop_S.
    destruct (block_to =? Z.min block_to (toBlock + bs)) eqn:Hbreak.
    + apply Z.eqb_eq in Hbreak.
      exists 1%nat. simpl. split; [lia|].
      split; [f_equal; f_equal; [lia | f_equal; lia]|].
      split; [lia | right; lia].
    + apply Z.eqb_neq in Hbreak.
      destruct (IH (toBlock + 1) (Z.min block_to (toBlock + bs)))
        as (m & Hm & -> & Hlast & Hstop); [lia|].
      exists (S m). split; [lia|].
      assert (Hmin : Z.min block_to (toBlock + bs) = toBlock + bs) by lia.
      rewrite Hmin in *. rewrite Nat2Z.inj_succ.
      split; [|split; [lia | destruct Hstop; [left|right]; lia]].
      cbn [windows]. f_equal. f_equal; [lia | f_equal; lia].
Qed.

Lemma length_windows m fromBlock toBlock :
  length (windows bs m fromBlock toBlock) = m.
Proof.
  revert fromBlock toBlock. induction m as [|m IH]; intros; simpl; [done|].
  by rewrite IH.
Qed.

Lemma windows_app m k fromBlock toBlock :
  windows bs (S m + k) fromBlock toBlock =
  windows bs (S m) fromBlock toBlock ++
  windows bs k (toBlock + Z.of_nat m * bs + 1) (toBlock + Z.of_nat (S m) * bs).
Proof.
  revert fromBlock toBlock. induction m as [|m IH]; intros fromBlock toBlock.
  - simpl. f_equal. f_equal; lia.
  - change (S (S m) + k)%nat with (S (S m + k)).
    cbn [windows]. rewrite IH. cbn [windows app]. do 3 f_equal.
    f_equal; lia.
Qed.

Lemma windows_lookup m fromBlock toBlock (i : nat) :
  (i < m)%nat →
  windows bs m fromBlock toBlock !! i =
  Some (if decide (i = O) then fromBlock else toBlock + (Z.of_nat i - 1) * bs + 1,
        toBlock + Z.of_nat i * bs).
Proof.
  revert fromBlock toBlock i.
  induction m as [|m IH]; intros fromBlock toBlock i Hi; [lia|].
  destruct i as [|i]; simpl.
  - do 2 f_equal. lia.
  - rewrite IH by lia. do 2 f_equal.
    + destruct (decide (i = O)); lia.
    + lia.
Qed.

Lemma fetch_loop_done fuel fromBlock toBlock recs :
  block_to ≤ toBlock →
  fetch_loop bs block_to getEvents fuel fromBlock toBlock recs
    = Some ([], Ok recs).
Proof.
  intros Hge. destruct fuel; simpl;
    by rewrite (proj2 (Z.ltb_ge _ _) Hge).
Qed.

Lemma Promise_all_Ok promises rs :
  Promise_all getEvents promises = Ok rs →
  Forall (λ c : Chunk, ∃ r, getEvents c.1 c.2 = Ok r) promises.
Proof.
  unfold Promise_all. revert rs.
  induction promises as [|c promises IH]; intros rs H; [constructor|].
  simpl in H. destruct (getEvents c.1 c.2) as [r|e] eqn:Hc; [|done].
  simpl in H.
  destruct (mapM (λ c : Chunk, getEvents c.1 c.2) promises) as [rs'|e] eqn:Hm;
    [|done].
  constructor; [eauto | by eapply IH].
Qed.

(** The [while] loop returns within [block_to - toBlock] passes.  The
    chunks it dispatched are windows in a row that all end before
    [block_to]; every group holds between 1 and 11 of them and every
    group but the last holds 11; when the loop ends without an error
    every dispatched query was answered. *)
Lemma fetch_loop_spec fuel fromBlock toBlock recs :
  (Z.to_nat (block_to - toBlock) ≤ fuel)%nat →
  ∃ groups r (K : nat),
    fetch_loop bs block_to getEvents fuel fromBlock toBlock recs
      = Some (groups, r) ∧
    concat groups = windows bs K fromBlock toBlock ∧
    (K = O ∨ toBlock + (Z.of_nat K - 1) * bs < block_to) ∧
    (block_to ≤ toBlock → groups = []) ∧
    Forall (λ g, (1 ≤ length g ≤ 11)%nat) groups ∧
    (∀ i g, groups !! i = Some g → (S i < length groups)%nat →
       length g = 11%nat) ∧
    (∀ recs', r = Ok recs' →
       Forall (λ c : Chunk, ∃ r, getEvents c.1 c.2 = Ok r) (concat groups)).
Proof.
  revert fromBlock toBlock recs.
  induction fuel as [|fuel IH]; intros fromBlock toBlock recs Hfuel.
  - exists [], (Ok recs), O. rewrite fetch_loop_done by lia.
    repeat split; [by left | constructor | | constructor].
    intros i g Hg. by rewrite lookup_nil in Hg.
  - destruct (decide (toBlock < block_to)) as [Hlt|Hge].
    2:{ exists [], (Ok recs), O. rewrite fetch_loop_done by lia.
        repeat split; [by left | constructor | | constructor].
        intros i g Hg. by rewrite lookup_nil in Hg. }
    cbn [fetch_loop]. rewrite (proj2 (Z.ltb_lt _ _) Hlt).
    change (Z.to_nat (BATCH_NUMBER + 1)) with 11%nat.
    destruct (batch_loop_spec 10 fromBlock toBlock Hlt)
      as (m & Hm & -> & Hlast & Hstop).
    destruct (Promise_all getEvents (windows bs m fromBlock toBlock))
      as [rs|e] eqn:Hall.
    + assert (Hmbs : Z.of_nat m ≤ Z.of_nat m * bs) by nia.
      destruct (IH (toBlock + (Z.of_nat m - 1) * bs + 1)
                  (Z.min block_to (toBlock + Z.of_nat m * bs))
                  (recs ++ concat rs))
        as (groups & r & K & -> & Hcat & HK & Hnil & Hlen & Hfull & Hok); [lia|].
      assert (Hgroups : groups = [] ∨
                (groups ≠ [] ∧ m = 11%nat ∧
                 Z.min block_to (toBlock + Z.of_nat m * bs)
                   = toBlock + Z.of_nat m * bs)).
      { destruct (decide (block_to ≤ toBlock + Z.of_nat m * bs)) as [Hreach|Hnot].
        - left. apply Hnil. lia.
        - destruct groups; [by left|right]. split; [done|]. lia. }
      exists (windows bs m fromBlock toBlock :: groups), r.
      destruct Hgroups as [->|(Hne & -> & Hmin)].
      * exists m. simpl in *. rewrite app_nil_r.
        repeat split; [by right | lia | | |].
        -- constructor; [|done]. rewrite length_windows. lia.
        -- intros i g Hg Hi. simpl in Hi. lia.
        -- intros recs' Hr. by eapply Promise_all_Ok.
      * rewrite Hmin in *. destruct K as [|K].
        { simpl in Hcat. destruct groups as [|g groups]; [done|].
          apply Forall_cons in Hlen as [Hg _]. simpl in Hcat.
          destruct g; [simpl in Hg; lia | done]. }
        exists (11 + S K)%nat. cbn [concat]. rewrite Hcat.
        repeat split.
        -- symmetry. change (11 + S K)%nat with (S 10 + S K)%nat.
           by rewrite windows_app.
        -- right. destruct HK as [|HK]; [done|]. lia.
        -- lia.
        -- constructor; [|done]. rewrite length_windows. lia.
        -- intros i g Hg Hi. destruct i as [|i]; simpl in *.
           ++ injection Hg as <-. by rewrite ?length_windows.
           ++ apply (Hfull i g Hg). lia.
        -- intros recs' Hr. rewrite <- Hcat. apply Forall_app. split.
           ++ by eapply Promise_all_Ok.
           ++ by eapply Hok.
    + exists [windows bs m fromBlock toBlock], (Throw e), m.
      simpl. rewrite app_nil_r. repeat split; [by right | lia | | | done].
      * constructor; [|done]. rewrite length_windows. lia.
      * intros i g Hg Hi. simpl in Hi. lia.
Qed.
End FetchFacts.

Section RunFacts.
Variable bs : Z.
Hypothesis bs_pos : 1 ≤ bs.

Lemma fetch_spec block_from block_to getEvents :
  ∃ groups r,
    fetch bs block_from block_to getEvents = Some (groups, r) ∧
    well_grouped bs block_from block_to groups ∧
    (∀ recs, r = Ok recs →
       Forall (λ c : Chunk, ∃ r, getEvents c.1 c.2 = Ok r) (concat groups)).
Proof.
  unfold fetch.
  destruct (fetch_loop_spec bs block_to getEvents bs_pos
              (Z.to_nat (block_to - block_from)) block_from
              (Z.min block_to (block_from + bs)) [])
    as (groups & r & K & Hrun & Hcat & HK & _ & Hlen & Hfull & Hok); [lia|].
  exists groups, r. split; [done|]. split; [|done].
  split; [|done]. exists K. destruct K as [|K].
  - split; [|by left]. by rewrite Hcat.
  - destruct HK as [|HK]; [done|].
    assert (Hmin : Z.min block_to (block_from + bs) = block_from + bs) by nia.
    rewrite Hmin in *. split; [done|]. right. lia.
Qed.

(** Every run returns; it dispatches well-grouped chunks, and it either
    stops with an error on the error stream, status 1 and nothing
    written, or stops at a check of the command line, or writes a table
    after all dispatched queries were answered. *)
Lemma run_spec cfg tokenContract :
  ∃ out,
    run bs cfg tokenContract = Some out ∧
    well_grouped bs (BLOCK_FROM cfg) (BLOCK_TO cfg) (dispatched out) ∧
    (∀ msg, validation cfg = Some msg →
       out = {| stderr := [msg]; dispatched := []; written := None;
                exit_status := 0 |}) ∧
    (validation cfg = None →
     (written out = None ∧ exit_status out = 1 ∧ ∃ e, stderr out = [e]) ∨
     ((∃ L, written out = Some L) ∧ exit_status out = 0 ∧ stderr out = [] ∧
      Forall (λ c : Chunk, ∃ r,
                getEventsInRange (ERC_STANDARD cfg) tokenContract c.1 c.2 = Ok r)
             (concat (dispatched out)))).
Proof.
  unfold run, main.
  destruct (validation cfg) as [msg|] eqn:Hv.
  - eexists. split; [done|]. split; [|split; [by intros ? [= <-]|done]]. simpl.
    split; [|split; [constructor|]].
    + exists O. split; [done | by left].
    + intros i g Hg. by rewrite lookup_nil in Hg.
  - destruct (fetch_spec (BLOCK_FROM cfg) (BLOCK_TO cfg)
                (getEventsInRange (ERC_STANDARD cfg) tokenContract))
      as (groups & r & -> & Hwg & Hok).
    destruct r as [recs|e]; simpl.
    + destruct (sort recs) as [sorted|e]; simpl.
      * eexists. split; [done|]. split; [done|]. split; [done|].
        intros _. right. simpl. repeat split; eauto.
      * eexists. split; [done|]. split; [done|]. split; [done|].
        intros _. left. simpl. eauto.
    + eexists. split; [done|]. split; [done|]. split; [done|].
      intros _. left. simpl. eauto.
Qed.

Lemma windows_lower m fromBlock toBlock (c : Chunk) :
  fromBlock ≤ toBlock + 1 → c ∈ windows bs m fromBlock toBlock →
  fromBlock ≤ c.1.
Proof.
  revert fromBlock toBlock. induction m as [|m IH]; intros fromBlock toBlock Hle Hc.
  - by apply elem_of_nil in Hc.
  - simpl in Hc. apply elem_of_cons in Hc as [->|Hc]; [simpl; lia|].
    apply IH in Hc; lia.
Qed.

Lemma times_queried_none (chunks : list Chunk) b :
  (∀ c, c ∈ chunks → ¬ in_chunk b c) → times_queried chunks b = O.
Proof.
  intros H. unfold times_queried.
  induction chunks as [|c chunks IH]; [done|].
  rewrite filter_cons_False by (apply H; left).
  apply IH. intros c' Hc'. apply H. by right.
Qed.

Lemma times_queried_windows m fromBlock toBlock b :
  fromBlock ≤ toBlock + 1 →
  (times_queried (windows bs m fromBlock toBlock) b ≤ 1)%nat.
Proof.
  revert fromBlock toBlock. induction m as [|m IH]; intros fromBlock toBlock Hle.
  - simpl. unfold times_queried. simpl. lia.
  - cbn [windows]. unfold times_queried.
    destruct (decide (in_chunk b (fromBlock, toBlock))) as [Hin|Hout].
    + rewrite filter_cons_True by done. simpl.
      fold (times_queried (windows bs m (toBlock + 1) (toBlock + bs)) b).
      rewrite times_queried_none; [lia|].
      intros c Hc. apply windows_lower in Hc; [|lia].
      unfold in_chunk in *. simpl in *. lia.
    + rewrite filter_cons_False by done. apply IH. lia.
Qed.
End RunFacts.

(** The windows of the fetch loop.  For [from ≤ to] and a window size of
    at least 1 the run returns, and the chunks it queried are, in order, the
    windows [from .. from + bs] and then
    [from + i·bs + 1 .. from + (i+1)·bs]: each starts right after its
    predecessor, all lie inside [from .. to], no block is queried twice
    and no block outside [from .. to] is queried at all, and there are at
    most ceil((to - from + 1) / bs) of them. *)
Theorem chunks_queried (bs : Z) (cfg : Config) (tokenContract : EventSource) :
  BLOCK_FROM cfg ≤ BLOCK_TO cfg → 1 ≤ bs →
  ∃ out, run bs cfg tokenContract = Some out ∧
    let chunks := concat (dispatched out) in
    (∀ i c, chunks !! i = Some c → c = window bs (BLOCK_FROM cfg) i) ∧
    (∀ i c c', chunks !! i = Some c → chunks !! S i = Some c' →
       c'.1 = c.2 + 1) ∧
    (∀ c, c ∈ chunks →
       BLOCK_FROM cfg ≤ c.1 ∧ c.1 ≤ c.2 ∧ c.2 ≤ BLOCK_TO cfg) ∧
    (∀ b, (times_queried chunks b ≤ 1)%nat) ∧
    (∀ b, ¬ (BLOCK_FROM cfg ≤ b ≤ BLOCK_TO cfg) → times_queried chunks b = O) ∧
    Z.of_nat (length chunks) ≤ ceil_div (BLOCK_TO cfg - BLOCK_FROM cfg + 1) bs.
Proof.
  intros Hrange Hbs.
  destruct (run_spec bs Hbs cfg tokenContract) as (out & Hrun & Hwg & _ & _).
  exists out. split; [done|]. cbv zeta.
  destruct Hwg as ((K & Hcat & HK) & _ & _). rewrite Hcat.
  set (block_from := BLOCK_FROM cfg) in *. set (block_to := BLOCK_TO cfg) in *.
  assert (Hidx : ∀ i c, windows bs K block_from (block_from + bs) !! i = Some c →
            (i < K)%nat ∧ c = window bs block_from i).
  { intros i c Hc. pose proof (lookup_lt_Some _ _ _ Hc) as Hi.
    rewrite length_windows in Hi. split; [done|].
    rewrite windows_lookup in Hc by done. injection Hc as <-.
    unfold window. destruct (decide (i = O)); f_equal; lia. }
  assert (Hin : ∀ c, c ∈ windows bs K block_from (block_from + bs) →
            block_from ≤ c.1 ∧ c.1 ≤ c.2 ∧ c.2 ≤ block_to).
  { intros c Hc. apply list_elem_of_lookup in Hc as [i Hc].
    apply Hidx in Hc as [Hi ->]. destruct HK as [->|HK]; [lia|].
    unfold window. simpl. destruct (decide (i = O)); nia. }
  repeat split.
  - intros i c Hc. by apply Hidx in Hc as [_ ->].
  - intros i c c' Hc Hc'. apply Hidx in Hc as [_ ->]. apply Hidx in Hc' as [_ ->].
    unfold window. simpl. destruct (decide (i = O)); lia.
  - by apply Hin.
  - by apply Hin.
  - by apply Hin.
  - intros b. apply times_queried_windows; lia.
  - intros b Hb. apply times_queried_none. intros c Hc. apply Hin in Hc.
    unfold in_chunk. lia.
  - rewrite length_windows. unfold ceil_div.
    apply Z.div_le_lower_bound; [lia|]. destruct HK as [->|HK]; lia.
Qed.

(** C1.  The code does not do what the claim says.  On the range
    1000 .. 1500 with windows of 250 blocks the window 1251 .. 1500 is
    computed (lines 67-68) but never pushed: the loop ends (lines 70 and
    56) as soon as a window reaches [BLOCK_TO].  The run queries the
    single chunk 1000 .. 1250, not the three chunks 1000 .. 1249,
    1250 .. 1499, 1500 .. 1500, and blocks 1251 to 1500 are never
    queried. *)
Lemma chunks_example_diverges :
  ∃ out, program (sample_config 721 1000 1500) quiet_contract = Some out ∧
    concat (dispatched out) = [(1000, 1250)] ∧
    concat (dispatched out) ≠ [(1000, 1249); (1250, 1499); (1500, 1500)] ∧
    Z.of_nat (length (concat (dispatched out)))
      ≠ ceil_div (1500 - 1000 + 1) BLOCK_SIZE ∧
    times_queried (concat (dispatched out)) 1251 = O ∧
    times_queried (concat (dispatched out)) 1500 = O.
Proof. eexists. split; [by vm_compute|]. by vm_compute. Qed.

Section Barrier.
Implicit Types (g : list Chunk) (groups : list (list Chunk)) (tr : list Step).

Lemma in_flight_app n tr1 tr2 :
  in_flight n (tr1 ++ tr2) = in_flight (in_flight n tr1) tr2.
Proof. unfold in_flight. apply fold_left_app. Qed.

Lemma in_flight_dispatches n g :
  in_flight n (map Dispatch g) = (n + length g)%nat.
Proof.
  revert n. induction g as [|c g IH]; intros n; simpl; [lia|].
  unfold in_flight in *. simpl. rewrite IH. lia.
Qed.

Lemma trace_cons g groups :
  trace (g :: groups) = (map Dispatch g ++ [AwaitAll]) ++ trace groups.
Proof. reflexivity. Qed.

Lemma trace_app groups1 groups2 :
  trace (groups1 ++ groups2) = trace groups1 ++ trace groups2.
Proof. unfold trace. by rewrite map_app, concat_app. Qed.

Lemma in_flight_group n g : in_flight n (map Dispatch g ++ [AwaitAll]) = O.
Proof. by rewrite in_flight_app. Qed.

Lemma in_flight_trace groups : groups ≠ [] → ∀ n, in_flight n (trace groups) = O.
Proof.
  induction groups as [|g groups IH]; [done|]. intros _ n.
  rewrite trace_cons, in_flight_app, in_flight_group.
  destruct groups as [|g' groups]; [done|]. by apply IH.
Qed.

(** After a whole number of groups nothing is in flight. *)
Lemma outstanding_trace groups : outstanding (trace groups) = O.
Proof.
  unfold outstanding. destruct groups; [done|]. by apply in_flight_trace.
Qed.

(** At every point of the trace, at most as many calls are in flight as
    the largest group holds. *)
Lemma outstanding_bounded (bound : nat) groups :
  Forall (λ g, (length g ≤ bound)%nat) groups →
  ∀ k, (outstanding (take k (trace groups)) ≤ bound)%nat.
Proof.
  unfold outstanding.
  induction groups as [|g groups IH]; intros Hlen k.
  - change (trace []) with (@nil Step). rewrite take_nil. simpl. lia.
  - apply Forall_cons in Hlen as [Hg Hlen].
    rewrite trace_cons, take_app, in_flight_app.
    destruct (decide (k ≤ length g)%nat) as [Hk|Hk].
    + rewrite take_app_le by (by rewrite length_map).
      rewrite length_app, length_map. simpl.
      replace (k - (length g + 1))%nat with O by lia.
      rewrite take_0. simpl. rewrite firstn_map, in_flight_dispatches.
      rewrite length_take. lia.
    + rewrite take_ge by (rewrite length_app, length_map; simpl; lia).
      rewrite in_flight_group. by apply IH.
Qed.
End Barrier.


Section Failure.
Lemma query_fails_throws erc_standard tokenContract (c : Chunk) :
  query_fails erc_standard tokenContract c →
  ∃ e, getEventsInRange erc_standard tokenContract c.1 c.2 = Throw e.
Proof.
  unfold getEventsInRange.
  intros [[-> [e He]]|[-> [[e He]|[e He]]]].
  - rewrite bool_decide_eq_true_2 by done. rewrite He. simpl. eauto.
  - rewrite bool_decide_eq_false_2 by done.
    rewrite bool_decide_eq_true_2 by done. rewrite He. simpl. eauto.
  - rewrite bool_decide_eq_false_2 by done.
    rewrite bool_decide_eq_true_2 by done.
    destruct (queryTransferSingle tokenContract c.1 c.2) as [tsEvents|e'];
      simpl; [|eauto].
    destruct (mapM single_record tsEvents) as [singles|e']; simpl; [|eauto].
    rewrite He. simpl. eauto.
Qed.

Lemma invalid_config_outcome bs cfg tokenContract msg :
  validation cfg = Some msg →
  run bs cfg tokenContract =
    Some {| stderr := [msg]; dispatched := []; written := None;
            exit_status := 0 |}.
Proof. intros Hv. unfold run. by rewrite Hv. Qed.

Lemma batch_records_no_own_ids (event : Event.t TransferBatchArgs.t) :
  Event._ids event = None → batch_records event = Ok [].
Proof. intros H. unfold batch_records. by rewrite H. Qed.
End Failure.

(** C5. Every run returns, and when the query of any chunk it dispatched
    is rejected, the run ends with status 1, an error on the error stream
    and no file written. *)
Theorem failed_query_aborts (cfg : Config) (tokenContract : EventSource) :
  ∃ out, program cfg tokenContract = Some out ∧
    ∀ c, c ∈ concat (dispatched out) →
      query_fails (ERC_STANDARD cfg) tokenContract c →
      exit_status out = 1 ∧ written out = None ∧ ∃ error, stderr out = [error].
Proof.
  assert (Hbs : 1 ≤ BLOCK_SIZE) by (unfold BLOCK_SIZE; lia).
  destruct (run_spec BLOCK_SIZE Hbs cfg tokenContract)
    as (out & Hrun & _ & Hinvalid & Hvalid).
  exists out. split; [done|]. intros c Hc Hfail.
  destruct (validation cfg) as [msg|] eqn:Hv.
  - rewrite (Hinvalid msg eq_refl) in Hc. simpl in Hc. by apply elem_of_nil in Hc.
  - destruct (Hvalid eq_refl) as [(Hw & Hs & He)|(_ & _ & _ & Hok)]; [done|].
    rewrite Forall_forall in Hok. destruct (Hok c Hc) as [r Hr].
    apply query_fails_throws in Hfail as [e He]. congruence.
Qed.

Lemma failed_query_aborts_witness :
  let cfg := sample_config 721 1000 5000 in
  let c : Chunk := (1251, 1500) in
  ∃ out, program cfg flaky_contract = Some out ∧
    c ∈ concat (dispatched out) ∧
    query_fails (ERC_STANDARD cfg) flaky_contract c ∧
    exit_status out = 1 ∧ written out = None ∧ ∃ error, stderr out = [error].
Proof.
  intros cfg c.
  destruct (failed_query_aborts cfg flaky_contract) as (out & Hrun & Habort).
  exists out. split; [exact Hrun|].
  assert (Hc : c ∈ concat (dispatched out)).
  { vm_compute in Hrun. injection Hrun as <-. simpl. right. left. }
  assert (Hfail : query_fails (ERC_STANDARD cfg) flaky_contract c).
  { left. split; [done|]. by exists "timeout". }
  exact (conj Hc (conj Hfail (Habort c Hc Hfail))).
Defined.

(** C4, as the code runs on invalid command lines: the address of the
    usage example, a standard outside the recognized set and the
    recognized but unsupported standard 20 each print their message and
    stop before any query, with exit status 0. *)
Theorem invalid_config_exits_zero (tokenContract : EventSource) :
  program {| TOKEN_CONTRACT_ADDRESS := Some "0x0"; ERC_STANDARD := Some 721;
             BLOCK_FROM := 1000; BLOCK_TO := 2000 |} tokenContract
    = Some {| stderr := ["Invalid Token Contract Address"]; dispatched := [];
              written := None; exit_status := 0 |} ∧
  program (sample_config 1 1000 2000) tokenContract
    = Some {| stderr := ["Invalid Token ERC Standard"]; dispatched := [];
              written := None; exit_status := 0 |} ∧
  program (sample_config 20 1000 2000) tokenContract
    = Some {| stderr := ["Not currently supported"]; dispatched := [];
              written := None; exit_status := 0 |}.
Proof. repeat split; by apply invalid_config_outcome. Qed.

(** C3, as the code runs on a batch event with ids 1, 2 and amounts 3, 5:
    the loop over the ids of the event runs no iteration, no record is
    emitted, and the run writes an empty table. *)
Theorem batch_event_yields_no_record :
  batch_records sample_batch_event = Ok [] ∧
  getEventsInRange (Some 1155) batch_contract 0 250 = Ok [] ∧
  ∃ out, program (sample_config 1155 0 1000) batch_contract = Some out ∧
    concat (dispatched out) = [(0, 250); (251, 500); (501, 750)] ∧
    written out = Some ∅ ∧ exit_status out = 0.
Proof.
  split; [done|]. split; [done|]. eexists. split; [by vm_compute|]. done.
Qed.

(** The loop without the fresh table of line 102 is not idempotent: run a
    second time on the table it produced, it moves every balance again. *)
Example replay_from_accumulates :
  let l := [ {| blockNumber := 1; transactionIndex := 0; logIndex := 0;
                from := "0xA"; to := "0xB"; id := "7"; amount := 1 |} ] in
  balance (replay l) "0xB" "7" = 1 ∧
  balance (replay_from (replay l) l) "0xB" "7" = 2 ∧
  balance (ownerRecords
             (replay_stage {| transferRecords := l; ownerRecords := replay l |}))
    "0xB" "7" = 1.
Proof. by vm_compute. Qed.

(** The window that ends at [BLOCK_TO] is never queried: every run
    returns, each chunk it queried ends before [BLOCK_TO], block
    [BLOCK_TO] is in no chunk, and a range of at most [BLOCK_SIZE + 1]
    blocks is not queried at all. *)
Theorem last_window_never_queried (cfg : Config) (tokenContract : EventSource) :
  ∃ out, program cfg tokenContract = Some out ∧
    (∀ c, c ∈ concat (dispatched out) → c.2 < BLOCK_TO cfg) ∧
    times_queried (concat (dispatched out)) (BLOCK_TO cfg) = O ∧
    (BLOCK_TO cfg ≤ BLOCK_FROM cfg + BLOCK_SIZE → dispatched out = []).
Proof.
  assert (Hbs : 1 ≤ BLOCK_SIZE) by (unfold BLOCK_SIZE; lia).
  destruct (run_spec BLOCK_SIZE Hbs cfg tokenContract)
    as (out & Hrun & ((K & Hcat & HK) & Hlen & _) & _).
  exists out. split; [done|].
  assert (Hend : ∀ c, c ∈ concat (dispatched out) → c.2 < BLOCK_TO cfg).
  { intros c Hc. rewrite Hcat in Hc. apply list_elem_of_lookup in Hc as [i Hc].
    pose proof (lookup_lt_Some _ _ _ Hc) as Hi. rewrite length_windows in Hi.
    rewrite windows_lookup in Hc by done. injection Hc as <-. simpl.
    destruct HK as [->|HK]; [lia|]. nia. }
  repeat split; [done| |].
  - apply times_queried_none. intros c Hc. apply Hend in Hc.
    unfold in_chunk. lia.
  - intros Hshort. destruct (dispatched out) as [|g groups]; [done|].
    exfalso. apply Forall_cons in Hlen as [Hg _].
    destruct g as [|c g]; [simpl in Hg; lia|].
    destruct K as [|K]; [done|]. destruct HK as [|HK]; [done|].
    unfold BLOCK_SIZE in *. lia.
Qed.

(** * Further properties of the replay *)

Section ReplayBalances.
Implicit Types (L : Ledger) (t : Transfer) (l : list Transfer) (o i : string).

Lemma balance_replay_from l L o i :
  Z.abs (balance L o i) + volume l o i ≤ MAX_SAFE_INTEGER →
  balance (replay_from L l) o i = balance L o i + net l o i.
Proof.
  revert L. induction l as [|t l IH]; intros L Hsafe.
  - unfold replay_from. simpl. lia.
  - unfold replay_from in *. cbn [fold_left]. simpl in Hsafe |- *.
    pose proof (volume_nonneg l o i) as Hpos.
    pose proof (delta_bound t o i) as Hdelta.
    assert (Hstep : balance (replay_step L t) o i = balance L o i + delta t o i).
    { apply balance_replay_step. intros Ht.
      rewrite decide_True in Hsafe by done. lia. }
    rewrite IH, Hstep; [lia|].
    rewrite Hstep. case_decide; lia.
Qed.

Lemma entry_replay_from_is_Some l L o i :
  is_Some (entry (replay_from L l) o i) ↔
  is_Some (entry L o i) ∨ Exists (λ t, touches t o i) l.
Proof.
  revert L. induction l as [|t l IH]; intros L.
  - rewrite Exists_nil. unfold replay_from. simpl. tauto.
  - unfold replay_from in *. cbn [fold_left].
    rewrite IH, entry_replay_step_is_Some, Exists_cons. tauto.
Qed.

Lemma entry_empty o i : entry ∅ o i = None.
Proof. unfold entry. by rewrite lookup_empty. Qed.

Lemma entry_replay_is_Some l o i :
  is_Some (entry (replay l) o i) ↔ Exists (λ t, touches t o i) l.
Proof.
  unfold replay. rewrite entry_replay_from_is_Some, entry_empty.
  split; [|by right]. intros [[? ?]|?]; done.
Qed.

Lemma balance_replay l o i :
  volume l o i ≤ MAX_SAFE_INTEGER → balance (replay l) o i = net l o i.
Proof.
  intros Hsafe. unfold replay.
  rewrite balance_replay_from; rewrite balance_empty; simpl; lia.
Qed.
End ReplayBalances.

(** As long as the amounts moved in and out of an entry add up to at most
    2^53 - 1, the balance the replay leaves for that owner and token id
    is the sum of the amounts the owner received in that id minus the sum
    of the amounts it sent; senders that never received end up
    negative. *)
Theorem replay_balance_is_net (records : list Transfer) (owner tokenId : string) :
  volume records owner tokenId ≤ MAX_SAFE_INTEGER →
  balance (replay records) owner tokenId = net records owner tokenId.
Proof. apply balance_replay. Qed.

Lemma replay_balance_is_net_witness :
  let l := [ {| blockNumber := 1; transactionIndex := 0; logIndex := 0;
                from := "0xA"; to := "0xB"; id := "7"; amount := 5 |};
             {| blockNumber := 2; transactionIndex := 0; logIndex := 0;
                from := "0xB"; to := "0xC"; id := "7"; amount := 2 |} ] in
  volume l "0xB" "7" ≤ MAX_SAFE_INTEGER ∧
  balance (replay l) "0xB" "7" = net l "0xB" "7".
Proof.
  intros l.
  assert (Hv : volume l "0xB" "7" ≤ MAX_SAFE_INTEGER) by (by vm_compute).
  exact (conj Hv (replay_balance_is_net l "0xB" "7" Hv)).
Defined.

(** The replay holds an entry for an owner and a token id exactly when
    some record names that owner as sender or receiver of that id. *)
Theorem replay_entry_iff_touched (records : list Transfer) (owner tokenId : string) :
  is_Some (entry (replay records) owner tokenId) ↔
  Exists (λ t, touches t owner tokenId) records.
Proof. apply entry_replay_is_Some. Qed.

Section ReplayOrder.
Implicit Types (L : Ledger) (t : Transfer) (l : list Transfer) (o i : string).

Lemma net_permutation l1 l2 o i : l1 ≡ₚ l2 → net l1 o i = net l2 o i.
Proof.
  induction 1 as [|t l1 l2 _ IH|t1 t2 l|l1 l2 l3 _ IH1 _ IH2]; simpl; lia.
Qed.

Lemma volume_permutation l1 l2 o i :
  l1 ≡ₚ l2 → volume l1 o i = volume l2 o i.
Proof.
  induction 1 as [|t l1 l2 _ IH|t1 t2 l|l1 l2 l3 _ IH1 _ IH2]; simpl; lia.
Qed.

Lemma Exists_permutation {A} (P : A → Prop) (l1 l2 : list A) :
  l1 ≡ₚ l2 → Exists P l1 ↔ Exists P l2.
Proof.
  intros Hp. rewrite !Exists_exists.
  split; intros (x & Hx & HP); exists x; (split; [|done]).
  - by rewrite <- Hp.
  - by rewrite Hp.
Qed.

Lemma lookup_replay_step_is_Some L t o :
  is_Some (replay_step L t !! o) ↔ is_Some (L !! o) ∨ from t = o ∨ to t = o.
Proof.
  unfold replay_step.
  rewrite credit_set_entry, lookup_set_entry_is_Some.
  rewrite debit_set_entry, lookup_set_entry_is_Some.
  intuition (subst; auto).
Qed.

Lemma lookup_replay_from_is_Some l L o :
  is_Some (replay_from L l !! o) ↔
  is_Some (L !! o) ∨ Exists (λ t, from t = o ∨ to t = o) l.
Proof.
  revert L. induction l as [|t l IH]; intros L.
  - rewrite Exists_nil. unfold replay_from. simpl. tauto.
  - unfold replay_from in *. cbn [fold_left].
    rewrite IH, lookup_replay_step_is_Some, Exists_cons. tauto.
Qed.

Lemma lookup_replay_is_Some l o :
  is_Some (replay l !! o) ↔ Exists (λ t, from t = o ∨ to t = o) l.
Proof.
  unfold replay. rewrite lookup_replay_from_is_Some, lookup_empty.
  split; [|by right]. intros [[? ?]|?]; done.
Qed.

(** The entries of a table whose amounts stay within the safe range. *)
Lemma entry_replay_safe l o i :
  volume l o i ≤ MAX_SAFE_INTEGER →
  entry (replay l) o i =
  if decide (Exists (λ t, touches t o i) l) then Some (net l o i) else None.
Proof.
  intros Hsafe.
  pose proof (entry_replay_is_Some l o i) as Hsome.
  pose proof (balance_replay l o i) as Hnet.
  unfold balance in Hnet.
  destruct (entry (replay l) o i) as [v|]; case_decide as Hex.
  - simpl in Hnet. rewrite Hnet by lia. done.
  - exfalso. apply Hex, Hsome. eauto.
  - exfalso. apply Hsome in Hex. by destruct Hex.
  - done.
Qed.

(** Tables of safe amounts do not depend on the order of the records. *)
Lemma replay_permutation_safe l1 l2 :
  (∀ o i, volume l1 o i ≤ MAX_SAFE_INTEGER) →
  l1 ≡ₚ l2 → replay l1 = replay l2.
Proof.
  intros Hsafe Hp.
  assert (Hsafe2 : ∀ o i, volume l2 o i ≤ MAX_SAFE_INTEGER).
  { intros o i. by rewrite <- (volume_permutation l1 l2 o i Hp). }
  assert (Hentry : ∀ o i, entry (replay l1) o i = entry (replay l2) o i).
  { intros o i. rewrite !entry_replay_safe by done.
    rewrite (net_permutation l1 l2 o i Hp).
    pose proof (Exists_permutation (λ t, touches t o i) l1 l2 Hp).
    repeat case_decide; tauto. }
  apply map_eq. intros o.
  pose proof (lookup_replay_is_Some l1 o) as H1.
  pose proof (lookup_replay_is_Some l2 o) as H2.
  pose proof (Exists_permutation (λ t, from t = o ∨ to t = o) l1 l2 Hp) as Hex.
  destruct (replay l1 !! o) as [h1|] eqn:Hl1, (replay l2 !! o) as [h2|] eqn:Hl2.
  - f_equal. apply map_eq. intros i.
    rewrite <- (entry_lookup _ _ _ i Hl1), <- (entry_lookup _ _ _ i Hl2).
    apply Hentry.
  - exfalso. assert (is_Some (@None (gmap string Z))) as [? ?]; [|done].
    apply H2, Hex, H1. eauto.
  - exfalso. assert (is_Some (@None (gmap string Z))) as [? ?]; [|done].
    apply H1, Hex, H2. eauto.
  - done.
Qed.
End ReplayOrder.

(** As long as no owner sends and receives more than 2^53 - 1 units of
    a token id in all, the table the replay builds does not depend on the
    order of the records: any rearrangement of the input gives the same
    mapping from owners and token ids to balances. *)
Theorem replay_order_independent (records1 records2 : list Transfer) :
  (∀ owner tokenId, volume records1 owner tokenId ≤ MAX_SAFE_INTEGER) →
  records1 ≡ₚ records2 → replay records1 = replay records2.
Proof. apply replay_permutation_safe. Qed.

Lemma replay_order_independent_witness :
  let t1 := {| blockNumber := 1; transactionIndex := 0; logIndex := 0;
               from := "0xA"; to := "0xB"; id := "7"; amount := 2 |} in
  let t2 := {| blockNumber := 2; transactionIndex := 0; logIndex := 0;
               from := "0xB"; to := "0xC"; id := "7"; amount := 1 |} in
  total_volume [t1; t2] ≤ MAX_SAFE_INTEGER ∧
  [t1; t2] ≡ₚ [t2; t1] ∧ replay [t1; t2] = replay [t2; t1].
Proof.
  intros t1 t2.
  assert (Hv : total_volume [t1; t2] ≤ MAX_SAFE_INTEGER) by (by vm_compute).
  assert (Hp : [t1; t2] ≡ₚ [t2; t1]) by apply Permutation_swap.
  exact (conj Hv (conj Hp
    (replay_order_independent _ _ (volume_safe_of_total _ Hv) Hp))).
Defined.

(** Past the safe range the order does matter: the same four records give
    2^53 in one order and 2^53 + 2 in another. *)
Example replay_order_matters_when_rounding :
  let big := {| blockNumber := 1; transactionIndex := 0; logIndex := 0;
                from := "0xA"; to := "0xC"; id := "7";
                amount := 9007199254740991 |} in
  let one k := {| blockNumber := k; transactionIndex := 0; logIndex := 0;
                  from := "0xA"; to := "0xC"; id := "7"; amount := 1 |} in
  balance (replay [big; one 2; one 3; one 4]) "0xC" "7" = 9007199254740992 ∧
  balance (replay [one 2; one 3; one 4; big]) "0xC" "7" = 9007199254740994.
Proof. by vm_compute. Qed.

(** * Further properties of the ordering *)

Section SortCanonical.
Implicit Types (a b x y : Transfer) (l s : list Transfer).

(** A list in strictly increasing key order is the only such arrangement
    of its elements. *)
Lemma sorted_permutation_unique s1 s2 :
  StronglySorted key_lt s1 → StronglySorted key_lt s2 → s1 ≡ₚ s2 → s1 = s2.
Proof.
  intros Hs1. revert s2.
  induction Hs1 as [|x s1 Hs1 IH Hx]; intros s2 Hs2 Hp.
  - by apply Permutation_nil_l in Hp.
  - destruct Hs2 as [|y s2 Hs2 Hy].
    { by apply Permutation_nil_r in Hp. }
    assert (Hxy : x = y).
    { assert (Hxin : x ∈ y :: s2) by (rewrite <- Hp; left).
      assert (Hyin : y ∈ x :: s1) by (rewrite Hp; left).
      apply elem_of_cons in Hxin as [Hxin|Hxin]; [done|].
      apply elem_of_cons in Hyin as [Hyin|Hyin]; [done|].
      rewrite Forall_forall in Hx, Hy.
      exfalso. apply (key_lt_irrefl x x eq_refl).
      eapply key_lt_trans; [by apply Hx | by apply Hy]. }
    subst y. f_equal. apply IH; [done|]. by eapply Permutation_cons_inv.
Qed.

Lemma sort_permutation l1 l2 : l1 ≡ₚ l2 → sort l1 = sort l2.
Proof.
  intros Hp.
  destruct (sort_spec l1) as [(Hnd1 & s1 & -> & Hp1 & Hs1)|[Hdup1 ->]],
           (sort_spec l2) as [(Hnd2 & s2 & -> & Hp2 & Hs2)|[Hdup2 ->]].
  - f_equal. apply sorted_permutation_unique; [done..|].
    by rewrite Hp1, Hp2.
  - exfalso. apply Hdup2. by rewrite <- Hp.
  - exfalso. apply Hdup1. by rewrite Hp.
  - done.
Qed.

Lemma sort_Ok_permutation l s : sort l = Ok s → s ≡ₚ l.
Proof.
  intros Hsort.
  destruct (sort_spec l) as [(_ & s' & Hs' & Hp & _)|[_ Hthrow]]; congruence.
Qed.

Lemma sort_Ok_NoDup l s : sort l = Ok s → NoDup (map key l).
Proof.
  intros Hsort.
  destruct (sort_spec l) as [(Hnd & _)|[_ Hthrow]]; [done | congruence].
Qed.
End SortCanonical.

(** The outcome of the sort depends only on which records it is given,
    not on the order they arrive in: rearranged inputs give the same
    sorted list, or both throw. *)
Theorem sort_order_independent (records1 records2 : list Transfer) :
  records1 ≡ₚ records2 → sort records1 = sort records2.
Proof. apply sort_permutation. Qed.

Lemma sort_order_independent_witness :
  let t1 := {| blockNumber := 3; transactionIndex := 0; logIndex := 0;
               from := "0xA"; to := "0xB"; id := "1"; amount := 1 |} in
  let t2 := {| blockNumber := 2; transactionIndex := 5; logIndex := 1;
               from := "0xB"; to := "0xC"; id := "2"; amount := 1 |} in
  [t1; t2] ≡ₚ [t2; t1] ∧ sort [t1; t2] = sort [t2; t1].
Proof.
  intros t1 t2.
  assert (Hp : [t1; t2] ≡ₚ [t2; t1]) by apply Permutation_swap.
  exact (conj Hp (sort_order_independent _ _ Hp)).
Defined.

(** Sorting what the sort returned changes nothing. *)
Theorem sort_fixes_its_output (records sorted : list Transfer) :
  sort records = Ok sorted → sort sorted = Ok sorted.
Proof.
  intros Hsort. rewrite <- Hsort. apply sort_permutation.
  by apply sort_Ok_permutation.
Qed.

Lemma sort_fixes_its_output_witness :
  let t1 := {| blockNumber := 3; transactionIndex := 0; logIndex := 0;
               from := "0xA"; to := "0xB"; id := "1"; amount := 1 |} in
  let t2 := {| blockNumber := 2; transactionIndex := 5; logIndex := 1;
               from := "0xB"; to := "0xC"; id := "2"; amount := 1 |} in
  sort [t1; t2] = Ok [t2; t1] ∧ sort [t2; t1] = Ok [t2; t1].
Proof.
  intros t1 t2.
  assert (Hs : sort [t1; t2] = Ok [t2; t1]) by reflexivity.
  exact (conj Hs (sort_fixes_its_output _ _ Hs)).
Defined.

(** As long as no owner sends and receives more than 2^53 - 1 units of
    a token id in all, sorting does not change the table a replay builds:
    whenever the sort returns, replaying its output gives the table of
    the unsorted records. *)
Theorem sort_keeps_the_table (records sorted : list Transfer) :
  (∀ owner tokenId, volume records owner tokenId ≤ MAX_SAFE_INTEGER) →
  sort records = Ok sorted → replay sorted = replay records.
Proof.
  intros Hsafe Hsort. symmetry. apply replay_permutation_safe; [done|].
  symmetry. by apply sort_Ok_permutation.
Qed.

Lemma sort_keeps_the_table_witness :
  let t1 := {| blockNumber := 3; transactionIndex := 0; logIndex := 0;
               from := "0xA"; to := "0xB"; id := "1"; amount := 1 |} in
  let t2 := {| blockNumber := 2; transactionIndex := 5; logIndex := 1;
               from := "0xB"; to := "0xC"; id := "2"; amount := 1 |} in
  total_volume [t1; t2] ≤ MAX_SAFE_INTEGER ∧
  sort [t1; t2] = Ok [t2; t1] ∧ replay [t2; t1] = replay [t1; t2].
Proof.
  intros t1 t2.
  assert (Hv : total_volume [t1; t2] ≤ MAX_SAFE_INTEGER) by (by vm_compute).
  assert (Hs : sort [t1; t2] = Ok [t2; t1]) by reflexivity.
  exact (conj Hv (conj Hs
    (sort_keeps_the_table _ _ (volume_safe_of_total _ Hv) Hs))).
Defined.

(** * Further properties of the fetch and of the whole run *)

Section FetchRecords.
Variable bs : Z.
Variable block_to : Z.
Variable getEvents : Z → Z → result (list Transfer).

Lemma Promise_all_app promises1 promises2 :
  Promise_all getEvents (promises1 ++ promises2) =
  match Promise_all getEvents promises1 with
  | Throw e => Throw e
  | Ok rs1 =>
      match Promise_all getEvents promises2 with
      | Throw e => Throw e
      | Ok rs2 => Ok (rs1 ++ rs2)
      end
  end.
Proof.
  unfold Promise_all.
  induction promises1 as [|c promises1 IH]; simpl.
  - by destruct (mapM _ promises2).
  - destruct (getEvents c.1 c.2) as [r|e]; simpl; [|done].
    rewrite IH.
    destruct (mapM _ promises1) as [rs1|e]; simpl; [|done].
    by destruct (mapM _ promises2).
Qed.

(** What the [while] loop hands back.  Without an error: the records it
    was given followed by the answers of all dispatched chunks in
    dispatch order.  With an error: that of the last group dispatched,
    every earlier group having been answered in full. *)
Lemma fetch_loop_records fuel fromBlock toBlock recs0 groups r :
  fetch_loop bs block_to getEvents fuel fromBlock toBlock recs0
    = Some (groups, r) →
  (∀ recs, r = Ok recs →
     ∃ rs, Promise_all getEvents (concat groups) = Ok rs ∧
           recs = recs0 ++ concat rs) ∧
  (∀ e, r = Throw e →
     ∃ gs g rs, groups = gs ++ [g] ∧
       Promise_all getEvents (concat gs) = Ok rs ∧
       Promise_all getEvents g = Throw e).
Proof.
  revert fromBlock toBlock recs0 groups r.
  induction fuel as [|fuel IH]; intros fromBlock toBlock recs0 groups r;
    cbn [fetch_loop]; destruct (toBlock <? block_to).
  - done.
  - intros [= <- <-]. split; [|done]. intros recs [= <-].
    exists []. split; [done|]. by rewrite app_nil_r.
  - destruct (batch_loop bs block_to (Z.to_nat (BATCH_NUMBER + 1))
                fromBlock toBlock) as [promises [fromBlock' toBlock']].
    destruct (Promise_all getEvents promises) as [rs1|e1] eqn:Hall.
    + destruct (fetch_loop bs block_to getEvents fuel fromBlock' toBlock'
                  (recs0 ++ concat rs1)) as [[groups' r']|] eqn:Hrec; [|done].
      intros [= <- <-]. destruct (IH _ _ _ _ _ Hrec) as [Hok Hthrow].
      split.
      * intros recs Hr. destruct (Hok recs Hr) as (rs & Hrs & ->).
        exists (rs1 ++ rs). cbn [concat].
        rewrite Promise_all_app, Hall, Hrs. split; [done|].
        by rewrite concat_app, app_assoc.
      * intros e Hr. destruct (Hthrow e Hr) as (gs & g & rs & -> & Hgs & Hg).
        exists (promises :: gs), g, (rs1 ++ rs). split; [done|].
        cbn [concat]. by rewrite Promise_all_app, Hall, Hgs.
    + intros [= <- <-]. split; [done|]. intros e [= <-].
      by exists [], promises, [].
  - intros [= <- <-]. split; [|done]. intros recs [= <-].
    exists []. split; [done|]. by rewrite app_nil_r.
Qed.

(** A loop that ends without an error has walked all the way: the next
    window after the chunks it dispatched would reach [block_to]. *)
Lemma fetch_loop_reach fuel fromBlock toBlock recs0 groups recs :
  1 ≤ bs →
  fetch_loop bs block_to getEvents fuel fromBlock toBlock recs0
    = Some (groups, Ok recs) →
  block_to ≤ toBlock + Z.of_nat (length (concat groups)) * bs.
Proof.
  intros Hbs. revert fromBlock toBlock recs0 groups recs.
  induction fuel as [|fuel IH]; intros fromBlock toBlock recs0 groups recs;
    cbn [fetch_loop]; destruct (toBlock <? block_to) eqn:Hlt.
  - done.
  - intros [= <- <-]. apply Z.ltb_ge in Hlt. simpl. lia.
  - apply Z.ltb_lt in Hlt.
    change (Z.to_nat (BATCH_NUMBER + 1)) with 11%nat.
    destruct (batch_loop_spec bs block_to Hbs 10 fromBlock toBlock Hlt)
      as (m & Hm & -> & Hlast & Hstop).
    destruct (Promise_all getEvents (windows bs m fromBlock toBlock))
      as [rs1|e1]; [|done].
    destruct (fetch_loop bs block_to getEvents fuel _ _ _)
      as [[groups' r']|] eqn:Hrec; [|done].
    intros [= <- ->]. apply IH in Hrec.
    cbn [concat]. rewrite length_app, length_windows. lia.
  - intros [= <- <-]. apply Z.ltb_ge in Hlt. simpl. lia.
Qed.
End FetchRecords.

Section RunOutcomes.
Implicit Types (cfg : Config) (tokenContract : EventSource) (out : Outcome).

(** The three ways a run ends. *)
Lemma run_cases bs cfg tokenContract out :
  run bs cfg tokenContract = Some out →
  (∃ msg, validation cfg = Some msg ∧
     out = {| stderr := [msg]; dispatched := []; written := None;
              exit_status := 0 |}) ∨
  (validation cfg = None ∧
   ∃ groups e,
     main bs cfg tokenContract = Some (groups, Throw e) ∧
     out = {| stderr := [e]; dispatched := groups; written := None;
              exit_status := 1 |}) ∨
  (validation cfg = None ∧
   ∃ groups L,
     main bs cfg tokenContract = Some (groups, Ok L) ∧
     out = {| stderr := []; dispatched := groups; written := Some L;
              exit_status := 0 |}).
Proof.
  unfold run. destruct (validation cfg) as [msg|].
  - intros [= <-]. left. by exists msg.
  - destruct (main bs cfg tokenContract) as [[groups [L|e]]|]; [| |done].
    + intros [= <-]. right; right. split; [done|]. by exists groups, L.
    + intros [= <-]. right; left. split; [done|]. by exists groups, e.
Qed.

Lemma main_Ok_inv bs cfg tokenContract groups L :
  main bs cfg tokenContract = Some (groups, Ok L) →
  ∃ recs sorted,
    fetch bs (BLOCK_FROM cfg) (BLOCK_TO cfg)
      (getEventsInRange (ERC_STANDARD cfg) tokenContract)
      = Some (groups, Ok recs) ∧
    sort recs = Ok sorted ∧ L = replay sorted.
Proof.
  unfold main.
  destruct (fetch _ _ _ _) as [[groups' [recs|e]]|]; [| |done]; simpl.
  - destruct (sort recs) as [sorted|e] eqn:Hsort; simpl; [|done].
    intros [= <- <-]. by exists recs, sorted.
  - done.
Qed.
End RunOutcomes.



(** Nothing is dispatched after a group with a rejected query: every run
    returns, and every group it dispatched other than the last one was
    answered in full. *)
Theorem no_dispatch_after_a_failed_group (cfg : Config) (tokenContract : EventSource) :
  ∃ out, program cfg tokenContract = Some out ∧
    ∀ gs g, dispatched out = gs ++ [g] →
      ∃ rs, Promise_all (getEventsInRange (ERC_STANDARD cfg) tokenContract)
              (concat gs) = Ok rs.
Proof.
  assert (Hbs : 1 ≤ BLOCK_SIZE) by (unfold BLOCK_SIZE; lia).
  destruct (run_spec BLOCK_SIZE Hbs cfg tokenContract) as (out & Hrun & _).
  exists out. split; [done|]. intros gs g Hd.
  destruct (run_cases _ _ _ _ Hrun)
    as [(msg & _ & ->)|[(_ & groups & e & Hmain & ->)|(_ & groups & L & Hmain & ->)]];
    simpl in Hd.
  - by destruct gs.
  - unfold main in Hmain.
    destruct (fetch _ _ _ _) as [[groups' r]|] eqn:Hfetch; [|done].
    injection Hmain as -> Hr. unfold fetch in Hfetch.
    apply fetch_loop_records in Hfetch as [Hok Hthrow].
    destruct r as [recs|e'].
    + destruct (Hok recs eq_refl) as (rs & Hrs & _).
      rewrite Hd, concat_app, Promise_all_app in Hrs.
      destruct (Promise_all _ (concat gs)) as [rs1|]; [eauto | done].
    + destruct (Hthrow e' eq_refl) as (gs' & g' & rs & Hgroups & Hgs & _).
      rewrite Hd in Hgroups. apply app_inj_tail in Hgroups as [-> _]. eauto.
  - apply main_Ok_inv in Hmain as (recs & sorted & Hfetch & _).
    unfold fetch in Hfetch. apply fetch_loop_records in Hfetch as [Hok _].
    destruct (Hok recs eq_refl) as (rs & Hrs & _).
    rewrite Hd, concat_app, Promise_all_app in Hrs.
    destruct (Promise_all _ (concat gs)) as [rs1|]; [eauto | done].
Qed.

Section Coverage.
Variable bs : Z.
Hypothesis bs_pos : 1 ≤ bs.

Lemma windows_upper m fromBlock toBlock (c : Chunk) :
  c ∈ windows bs m fromBlock toBlock →
  c.2 ≤ toBlock + (Z.of_nat m - 1) * bs.
Proof.
  intros Hc. apply list_elem_of_lookup in Hc as [i Hc].
  pose proof (lookup_lt_Some _ _ _ Hc) as Hi. rewrite length_windows in Hi.
  rewrite windows_lookup in Hc by done. injection Hc as <-. simpl. nia.
Qed.

Lemma windows_cover m fromBlock toBlock b :
  fromBlock ≤ toBlock →
  fromBlock ≤ b ≤ toBlock + (Z.of_nat m - 1) * bs → (1 ≤ m)%nat →
  ∃ c, c ∈ windows bs m fromBlock toBlock ∧ in_chunk b c.
Proof.
  revert fromBlock toBlock.
  induction m as [|m IH]; intros fromBlock toBlock Hle Hb Hm; [lia|].
  destruct (decide (b ≤ toBlock)) as [Hin|Hout].
  - exists (fromBlock, toBlock). split; [left|]. unfold in_chunk. simpl. lia.
  - destruct (IH (toBlock + 1) (toBlock + bs)) as (c & Hc & Hbc); [lia| |nia|].
    + split; [lia|]. nia.
    + exists c. split; [by right | done].
Qed.

Lemma times_queried_pos (chunks : list Chunk) b c :
  c ∈ chunks → in_chunk b c → (1 ≤ times_queried chunks b)%nat.
Proof.
  intros Hc Hb. unfold times_queried.
  assert (Hin : c ∈ filter (in_chunk b) chunks) by (by apply list_elem_of_filter).
  destruct (filter (in_chunk b) chunks); [by apply elem_of_nil in Hin|].
  simpl. lia.
Qed.

(** How often each block is queried by [m] windows in a row. *)
Lemma times_queried_windows_exact m fromBlock toBlock b :
  fromBlock ≤ toBlock →
  times_queried (windows bs m fromBlock toBlock) b =
  if decide ((1 ≤ m)%nat ∧ fromBlock ≤ b ≤ toBlock + (Z.of_nat m - 1) * bs)
  then 1%nat else 0%nat.
Proof.
  intros Hle. case_decide as Hcase.
  - destruct Hcase as [Hm Hb].
    destruct (windows_cover m fromBlock toBlock b Hle Hb Hm) as (c & Hc & Hbc).
    pose proof (times_queried_pos _ _ _ Hc Hbc).
    pose proof (times_queried_windows bs bs_pos m fromBlock toBlock b).
    lia.
  - apply times_queried_none. intros c Hc Hbc.
    pose proof (windows_lower bs bs_pos m fromBlock toBlock c) as Hlo.
    pose proof (windows_upper m fromBlock toBlock c Hc) as Hup.
    apply Hcase. split.
    + destruct m; [by apply elem_of_nil in Hc | lia].
    + unfold in_chunk in Hbc. specialize (Hlo ltac:(lia) Hc). lia.
Qed.
End Coverage.

(** Which blocks a run that wrote its table has queried.  With window
    size [bs], range [from .. to] and [K] the number of whole multiples of
    [bs] below [to - from], the run queried [K] chunks; they cover the
    blocks [from .. from + K·bs] once each and no other block.  For
    [from < to] the last block covered lies at most [bs] blocks and at
    least one block before [to]. *)
Theorem answered_run_coverage (bs : Z) (cfg : Config)
    (tokenContract : EventSource) (out : Outcome) (L : Ledger) :
  1 ≤ bs →
  run bs cfg tokenContract = Some out → written out = Some L →
  let K := Z.max 0 ((BLOCK_TO cfg - BLOCK_FROM cfg - 1) / bs) in
  let chunks := concat (dispatched out) in
  Z.of_nat (length chunks) = K ∧
  (BLOCK_FROM cfg < BLOCK_TO cfg →
   BLOCK_TO cfg - bs ≤ BLOCK_FROM cfg + K * bs < BLOCK_TO cfg) ∧
  ∀ b, times_queried chunks b =
       if decide (1 ≤ K ∧ BLOCK_FROM cfg ≤ b ≤ BLOCK_FROM cfg + K * bs)
       then 1%nat else 0%nat.
Proof.
  intros Hbs Hrun Hw.
  destruct (run_cases _ _ _ _ Hrun)
    as [(msg & _ & ->)|[(_ & groups & e & _ & ->)|(_ & groups & L' & Hmain & ->)]];
    [done..|].
  clear Hrun Hw. cbn [dispatched].
  apply main_Ok_inv in Hmain as (recs & sorted & Hfetch & _ & _).
  destruct (fetch_spec bs Hbs (BLOCK_FROM cfg) (BLOCK_TO cfg)
              (getEventsInRange (ERC_STANDARD cfg) tokenContract))
    as (groups' & r' & Hfetch' & ((K' & Hcat & HK') & _) & _).
  rewrite Hfetch in Hfetch'. injection Hfetch' as <- <-.
  unfold fetch in Hfetch. apply (fetch_loop_reach _ _ _ _ _ _ _ _ _ Hbs) in Hfetch.
  rewrite Hcat, length_windows in Hfetch.
  set (from_ := BLOCK_FROM cfg) in *. set (to_ := BLOCK_TO cfg) in *.
  assert (HKeq : Z.max 0 ((to_ - from_ - 1) / bs) = Z.of_nat K').
  { destruct HK' as [->|HK'].
    - assert ((to_ - from_ - 1) / bs < 1)
        by (apply Z.div_lt_upper_bound; lia).
      lia.
    - assert ((to_ - from_ - 1) / bs = Z.of_nat K'); [|lia].
      symmetry. apply (Z.div_unique_pos _ _ _ (to_ - from_ - 1 - Z.of_nat K' * bs));
        lia. }
  cbv zeta. rewrite HKeq, Hcat, length_windows.
  split; [done|]. split; [destruct HK' as [->|HK']; lia|].
  intros b. rewrite (times_queried_windows_exact bs Hbs) by lia.
  repeat case_decide; try done; exfalso; lia.
Qed.

Lemma answered_run_coverage_witness :
  let cfg := sample_config 721 1000 2000 in
  ∃ out L,
    1 ≤ BLOCK_SIZE ∧
    run BLOCK_SIZE cfg quiet_contract = Some out ∧ written out = Some L ∧
    Z.of_nat (length (concat (dispatched out))) = 3 ∧
    ∀ b, times_queried (concat (dispatched out)) b =
         if decide (1 ≤ 3 ∧ 1000 ≤ b ≤ 1750) then 1%nat else 0%nat.
Proof.
  intros cfg. eexists _, _.
  assert (Hbs : 1 ≤ BLOCK_SIZE) by (unfold BLOCK_SIZE; lia).
  assert (Hrun : run BLOCK_SIZE cfg quiet_contract
                 = Some {| stderr := [];
                           dispatched := [[(1000, 1250); (1251, 1500); (1501, 1750)]];
                           written := Some ∅; exit_status := 0 |})
    by (by vm_compute).
  split; [exact Hbs|]. split; [exact Hrun|]. split; [reflexivity|].
  pose proof (answered_run_coverage BLOCK_SIZE cfg quiet_contract _ _
                Hbs Hrun eq_refl) as (Hlen & _ & Hcov).
  split; [exact Hlen | exact Hcov].
Defined.

(** * The checks of the command line and the outcome of a run *)

Section Validation.
Lemma elem_of_standards (e : option Z) :
  e ∈ [Some 20; Some 721; Some 1155] ↔
  e = Some 20 ∨ e = Some 721 ∨ e = Some 1155.
Proof. rewrite !elem_of_cons, elem_of_nil. tauto. Qed.

Lemma elem_of_standard_numbers (e : Z) :
  e ∈ [20; 721; 1155] ↔ e = 20 ∨ e = 721 ∨ e = 1155.
Proof. rewrite !elem_of_cons, elem_of_nil. tauto. Qed.

(** The checks in the order the script makes them: first the address,
    then the standard. *)
Lemma validation_good_address (cfg : Config) :
  let good_address :=
    ∃ a, TOKEN_CONTRACT_ADDRESS cfg = Some a ∧ String.length a = 42%nat in
  (¬ good_address ∧ validation cfg = Some "Invalid Token Contract Address") ∨
  (good_address ∧
   ((validation cfg = Some "Not currently supported" ∧
     ERC_STANDARD cfg = Some 20) ∨
    (validation cfg = None ∧
     (ERC_STANDARD cfg = Some 721 ∨ ERC_STANDARD cfg = Some 1155)) ∨
    (validation cfg = Some "Invalid Token ERC Standard" ∧
     ERC_STANDARD cfg ∉ [Some 20; Some 721; Some 1155]))).
Proof.
  destruct cfg as [[a|] erc block_from block_to]; cbv zeta; unfold validation;
    cbn [TOKEN_CONTRACT_ADDRESS ERC_STANDARD].
  2:{ left. split; [|done]. by intros (a & [=] & _). }
  case_bool_decide as Ha.
  { left. split; [|done]. intros (a0 & [= <-] & Hlen).
    destruct Ha as [->|Ha]; done. }
  right. split.
  { exists a. split; [done|].
    destruct (decide (String.length a = 42%nat)); [done|].
    exfalso. apply Ha. by right. }
  destruct erc as [erc|].
  2:{ right; right. split; [done|]. rewrite elem_of_standards.
      intros [?|[?|?]]; done. }
  case_bool_decide as He.
  { right; right. split; [done|]. rewrite elem_of_standards.
    rewrite elem_of_standard_numbers in He.
    intros [[= ->]|[[= ->]|[= ->]]]; destruct He as [?|He]; try done;
      apply He; auto. }
  case_bool_decide as H20.
  { left. by subst. }
  right; left. split; [done|].
  destruct (decide (erc ∈ [20; 721; 1155])) as [Hin|Hout].
  - apply elem_of_standard_numbers in Hin.
    destruct Hin as [Hin|[Hin|Hin]]; subst; auto. done.
  - exfalso. apply He. by right.
Qed.
End Validation.

(** The checks let a command line through exactly when the address is a
    string of 42 characters, whatever the characters, and the standard is
    721 or 1155.  The address is checked first; standard 20 has its own
    message. *)
Theorem validation_classifies (cfg : Config) :
  let good_address :=
    ∃ a, TOKEN_CONTRACT_ADDRESS cfg = Some a ∧ String.length a = 42%nat in
  (validation cfg = None ↔
     good_address ∧
     (ERC_STANDARD cfg = Some 721 ∨ ERC_STANDARD cfg = Some 1155)) ∧
  (validation cfg = Some "Invalid Token Contract Address" ↔ ¬ good_address) ∧
  (validation cfg = Some "Not currently supported" ↔
     good_address ∧ ERC_STANDARD cfg = Some 20) ∧
  (validation cfg = Some "Invalid Token ERC Standard" ↔
     good_address ∧ ERC_STANDARD cfg ∉ [Some 20; Some 721; Some 1155]).
Proof.
  cbv zeta.
  destruct (validation_good_address cfg) as [[Hbad ->]|(Hgood & Hv)].
  - split; [|split; [|split]]; split; try done; by intros [? _].
  - rewrite elem_of_standards.
    destruct Hv as [[-> He]|[[-> He]|[-> He]]];
      try rewrite elem_of_standards in He;
      (split; [|split; [|split]]); split; intros; try done;
      intuition congruence.
Qed.

Section ScriptOutcomes.
Implicit Types (cfg : Config) (tokenContract : EventSource) (out : Outcome).

Lemma well_shaped_report report groups status :
  status = 0 ∨ status = 1 →
  well_shaped {| stderr := [report]; dispatched := groups; written := None;
                 exit_status := status |}.
Proof.
  intros Hstatus. split; [done|]. split; [right; eauto|].
  split; [|done]. split; [by intros [? ?] | done].
Qed.

Lemma program_well_shaped cfg tokenContract :
  ∃ out, program cfg tokenContract = Some out ∧ well_shaped out ∧
    (exit_status out = 1 → validation cfg = None).
Proof.
  assert (Hbs : 1 ≤ BLOCK_SIZE) by (unfold BLOCK_SIZE; lia).
  destruct (run_spec BLOCK_SIZE Hbs cfg tokenContract) as (out & Hrun & _).
  exists out. split; [done|].
  destruct (run_cases _ _ _ _ Hrun)
    as [(msg & _ & ->)|[(Hv & groups & e & _ & ->)|(Hv & groups & L & _ & ->)]].
  - split; [apply well_shaped_report; by left | done].
  - split; [apply well_shaped_report; by right | done].
  - split; [|done]. split; [by left|]. split; [by left|].
    split; [|done]. split; [done | eauto].
Qed.
End ScriptOutcomes.

(** Whatever the reads of the ABI, the set-up of [main] and the write of
    the output file do, the script returns with status 0 or 1 and at most
    one report on the error stream: a message of the checks, the
    rejection of [main], or the uncaught exception of an ABI read.  It
    writes its table exactly when nothing is reported.  With status 1
    nothing is written, and the address had passed its check: either the
    command line was accepted, or the standard is 20 and reading its ABI
    threw before the message of line 31. *)
Theorem outcome_shapes (files : Files) (cfg : Config) (tokenContract : EventSource) :
  ∃ out, script files cfg tokenContract = Some out ∧
    (exit_status out = 0 ∨ exit_status out = 1) ∧
    (stderr out = [] ∨ ∃ report, stderr out = [report]) ∧
    (is_Some (written out) ↔ stderr out = []) ∧
    (exit_status out = 1 →
       written out = None ∧
       (validation cfg = None ∨
        (ERC_STANDARD cfg = Some 20 ∧
         ∃ error, read_abi files 20 = Some error ∧ stderr out = [error]))).
Proof.
  destruct (program_well_shaped cfg tokenContract)
    as (out & Hprog & (H1 & H2 & H3 & H4) & Hv).
  assert (Hsame : ∃ out', program cfg tokenContract = Some out' ∧
            (exit_status out' = 0 ∨ exit_status out' = 1) ∧
            (stderr out' = [] ∨ ∃ report, stderr out' = [report]) ∧
            (is_Some (written out') ↔ stderr out' = []) ∧
            (exit_status out' = 1 →
               written out' = None ∧
               (validation cfg = None ∨
                (ERC_STANDARD cfg = Some 20 ∧
                 ∃ error, read_abi files 20 = Some error ∧
                          stderr out' = [error])))).
  { exists out. split; [done|]. split; [done|]. split; [done|].
    split; [done|]. intros Hone. split; [auto|]. left. auto. }
  unfold script.
  destruct (TOKEN_CONTRACT_ADDRESS cfg) as [a|] eqn:Ha; [|done].
  case_bool_decide as Hlen; [done|].
  destruct (ERC_STANDARD cfg) as [erc|] eqn:Herc; [|done].
  case_bool_decide as Hstd; [done|].
  assert (Hvalid : erc ≠ 20 → validation cfg = None).
  { intros H20. unfold validation. rewrite Ha, Herc.
    rewrite bool_decide_eq_false_2 by done.
    rewrite bool_decide_eq_false_2 by done.
    by rewrite bool_decide_eq_false_2 by done. }
  destruct (read_abi files erc) as [error|] eqn:Hread.
  { exists (uncaught error).
    destruct (well_shaped_report error [] 1) as (S1 & S2 & S3 & S4); [by right|].
    split; [done|]. split; [done|]. split; [done|]. split; [done|].
    intros _. split; [done|].
    destruct (decide (erc = 20)) as [->|H20]; [|left; auto].
    right. split; [done|]. by exists error. }
  case_bool_decide as H20; [done|].
  destruct (setup files) as [error|].
  { eexists. split; [done|].
    destruct (well_shaped_report error [] (process_exit (Some 1)))
      as (S1 & S2 & S3 & S4); [by right|].
    split; [done|]. split; [done|]. split; [done|].
    intros _. split; [done|]. left. auto. }
  rewrite Hprog. simpl.
  destruct (written out) as [L|] eqn:Hw, (write_output files) as [error|];
    try (rewrite <- Hw in *; exact
      (ex_intro _ out (conj eq_refl (conj H1 (conj H2 (conj H3
         (λ Hone, conj (H4 Hone) (or_introl (Hv Hone))))))))).
  { eexists. split; [done|].
    destruct (well_shaped_report error (dispatched out) (process_exit (Some 1)))
      as (S1 & S2 & S3 & S4); [by right|].
    split; [done|]. split; [done|]. split; [done|].
    intros _. split; [done|]. left. auto. }
Qed.

(** * Normalization of the multi-asset events *)

Section MultiAsset.
Lemma single_record_safe (event : Event.t TransferSingleArgs.t) :
  safe_amount event →
  ∃ r, single_record event = Ok r ∧
    key r = (Event.blockNumber event, Event.transactionIndex event,
             Event.logIndex event) ∧
    from r = TransferSingleArgs._from (Event.args event) ∧
    to r = TransferSingleArgs._to (Event.args event) ∧
    id r = toString (TransferSingleArgs._id (Event.args event)) ∧
    amount r = TransferSingleArgs._amount (Event.args event).
Proof.
  intros Hsafe. unfold single_record, toNumber. unfold safe_amount in Hsafe.
  rewrite (proj2 (Z.leb_le _ _) Hsafe). simpl. eexists. by split.
Qed.

Lemma single_record_unsafe (event : Event.t TransferSingleArgs.t) :
  ¬ safe_amount event → single_record event = Throw "overflow".
Proof.
  intros Hunsafe. unfold single_record, toNumber.
  destruct (Z.abs _ <=? MAX_SAFE_INTEGER) eqn:Hsafe; [|done].
  exfalso. apply Hunsafe. unfold safe_amount. by apply Z.leb_le.
Qed.

Lemma mapM_result_cons {A B} (f : A → result B) x l :
  mapM f (x :: l) =
  match f x with
  | Throw e => Throw e
  | Ok y => match mapM f l with Throw e => Throw e | Ok k => Ok (y :: k) end
  end.
Proof. simpl. destruct (f x); [|done]. simpl. by destruct (mapM f l). Qed.

Lemma mapM_single_record_safe (tsEvents : list (Event.t TransferSingleArgs.t)) :
  Forall safe_amount tsEvents →
  ∃ recs, mapM single_record tsEvents = Ok recs ∧
    Forall2 (λ event r,
               key r = (Event.blockNumber event, Event.transactionIndex event,
                        Event.logIndex event) ∧
               from r = TransferSingleArgs._from (Event.args event) ∧
               to r = TransferSingleArgs._to (Event.args event) ∧
               id r = toString (TransferSingleArgs._id (Event.args event)) ∧
               amount r = TransferSingleArgs._amount (Event.args event))
            tsEvents recs.
Proof.
  induction 1 as [|event tsEvents Hsafe _ (recs & IH & Hrecs)].
  - exists []. split; [done | constructor].
  - destruct (single_record_safe event Hsafe) as (r & Hr & Hfields).
    rewrite mapM_result_cons, Hr, IH.
    exists (r :: recs). split; [done|]. by constructor.
Qed.

Lemma mapM_single_record_unsafe (tsEvents : list (Event.t TransferSingleArgs.t)) :
  ¬ Forall safe_amount tsEvents →
  mapM single_record tsEvents = Throw "overflow".
Proof.
  induction tsEvents as [|event tsEvents IH]; intros Hunsafe.
  - exfalso. apply Hunsafe. constructor.
  - rewrite mapM_result_cons.
    destruct (decide (safe_amount event)) as [Hsafe|Hsafe].
    + destruct (single_record_safe event Hsafe) as (r & -> & _).
      rewrite IH; [done|]. intros Hrest. apply Hunsafe. by constructor.
    + by rewrite (single_record_unsafe event Hsafe).
Qed.

Lemma mapM_batch_records_none (tbEvents : list (Event.t TransferBatchArgs.t)) :
  Forall (λ event, Event._ids event = None) tbEvents →
  ∃ batches, mapM batch_records tbEvents = Ok batches ∧ concat batches = [].
Proof.
  induction 1 as [|event tbEvents Hnone _ (batches & IH & Hcat)].
  - by exists [].
  - rewrite mapM_result_cons, (batch_records_no_own_ids _ Hnone), IH.
    by exists ([] :: batches).
Qed.
End MultiAsset.

(** A window of a multi-asset contract whose two queries are answered
    with events as the provider builds them.  When every single-transfer
    amount fits a JavaScript integer the window yields one record per
    single-transfer event, in event order, with the position, parties, id
    and amount of its event, and nothing for the batch events; when some
    amount does not fit, the window fails with "overflow". *)
Theorem multi_asset_window (tokenContract : EventSource) (fromBlock toBlock : Z)
    (tsEvents : list (Event.t TransferSingleArgs.t))
    (tbEvents : list (Event.t TransferBatchArgs.t)) :
  queryTransferSingle tokenContract fromBlock toBlock = Ok tsEvents →
  queryTransferBatch tokenContract fromBlock toBlock = Ok tbEvents →
  Forall (λ event, Event._ids event = None) tbEvents →
  (Forall safe_amount tsEvents →
   ∃ recs,
     getEventsInRange (Some 1155) tokenContract fromBlock toBlock = Ok recs ∧
     Forall2 (λ event r,
                key r = (Event.blockNumber event, Event.transactionIndex event,
                         Event.logIndex event) ∧
                from r = TransferSingleArgs._from (Event.args event) ∧
                to r = TransferSingleArgs._to (Event.args event) ∧
                id r = toString (TransferSingleArgs._id (Event.args event)) ∧
                amount r = TransferSingleArgs._amount (Event.args event))
             tsEvents recs) ∧
  (¬ Forall safe_amount tsEvents →
   getEventsInRange (Some 1155) tokenContract fromBlock toBlock
     = Throw "overflow").
Proof.
  intros Hts Htb Hnone. unfold getEventsInRange.
  rewrite bool_decide_eq_false_2 by done.
  rewrite bool_decide_eq_true_2 by done. rewrite Hts. simpl.
  split.
  - intros Hsafe.
    destruct (mapM_single_record_safe _ Hsafe) as (recs & -> & Hrecs).
    destruct (mapM_batch_records_none _ Hnone) as (batches & Hb & Hcat).
    simpl. rewrite Htb. simpl. rewrite Hb. simpl. rewrite Hcat, app_nil_r.
    by exists recs.
  - intros Hunsafe. by rewrite (mapM_single_record_unsafe _ Hunsafe).
Qed.

(** * Token ids and the output file *)

Section Decimal.
Lemma to_int_not_nil (z : Z) : Z.to_int z ≠ Decimal.Pos Decimal.Nil ∧
                               Z.to_int z ≠ Decimal.Neg Decimal.Nil.
Proof.
  destruct z as [|p|p]; simpl; split; try done;
    intros [= H]; by apply DecimalPos.Unsigned.to_uint_nonnil in H.
Qed.

(** The decimal numeral determines the number. *)
Lemma toString_inj (a b : Z) : toString a = toString b → a = b.
Proof.
  unfold toString. intros H.
  apply (f_equal NilZero.int_of_string) in H.
  destruct (to_int_not_nil a) as [Ha1 Ha2], (to_int_not_nil b) as [Hb1 Hb2].
  rewrite !NilZero.isi in H by done. injection H as H.
  by apply DecimalZ.to_int_inj.
Qed.

Lemma string_length_app (s1 s2 : string) :
  String.length (s1 +:+ s2) = (String.length s1 + String.length s2)%nat.
Proof. induction s1 as [|c s1 IH]; simpl; [done|]. by rewrite IH. Qed.

Lemma string_app_inj_same_length (s1 s2 t1 t2 : string) :
  String.length s1 = String.length s2 →
  s1 +:+ t1 = s2 +:+ t2 → s1 = s2 ∧ t1 = t2.
Proof.
  revert s2. induction s1 as [|c s1 IH]; intros [|c2 s2] Hlen Heq;
    simpl in *; try done.
  injection Heq as -> Heq. destruct (IH s2) as [-> ->]; [lia|done|done].
Qed.

Lemma string_app_inj_r (s1 s2 t : string) :
  s1 +:+ t = s2 +:+ t → s1 = s2.
Proof.
  intros Heq. apply (string_app_inj_same_length s1 s2 t t); [|done].
  apply (f_equal String.length) in Heq. rewrite !string_length_app in Heq. lia.
Qed.
End Decimal.

(** Two [Transfer] events give records with the same id exactly when they
    carry the same [tokenId]: no two tokens share an entry of the table. *)
Theorem token_ids_are_kept_apart (event1 event2 : Event.t TransferArgs.t) :
  id (transfer_record event1) = id (transfer_record event2) ↔
  TransferArgs.tokenId (Event.args event1)
    = TransferArgs.tokenId (Event.args event2).
Proof.
  unfold transfer_record. simpl. split; [apply toString_inj | by intros ->].
Qed.

(** Two accepted command lines name the same output file exactly when
    they agree on the contract address and on the end block; the start
    block and the standard play no part in the name. *)
Theorem output_path_identifies_run (dirname : string) (cfg1 cfg2 : Config)
    (address1 address2 : string) :
  validation cfg1 = None → validation cfg2 = None →
  TOKEN_CONTRACT_ADDRESS cfg1 = Some address1 →
  TOKEN_CONTRACT_ADDRESS cfg2 = Some address2 →
  (output_path dirname address1 (BLOCK_TO cfg1)
     = output_path dirname address2 (BLOCK_TO cfg2) ↔
   address1 = address2 ∧ BLOCK_TO cfg1 = BLOCK_TO cfg2).
Proof.
  intros Hv1 Hv2 Ha1 Ha2.
  assert (Hlen : ∀ cfg a, validation cfg = None →
            TOKEN_CONTRACT_ADDRESS cfg = Some a → String.length a = 42%nat).
  { intros cfg a Hv Ha.
    destruct (validation_good_address cfg) as [[_ Hbad]|((a' & Ha' & Hl) & _)];
      congruence. }
  split; [|by intros [-> ->]].
  unfold output_path. intros Heq.
  apply String.app_inj in Heq. apply String.app_inj in Heq.
  apply string_app_inj_same_length in Heq as [-> Heq].
  2:{ rewrite (Hlen cfg1 address1), (Hlen cfg2 address2); done. }
  split; [done|].
  apply String.app_inj in Heq. apply string_app_inj_r in Heq.
  by apply toString_inj.
Qed.

Lemma output_path_identifies_run_witness :
  let cfg1 := sample_config 721 1000 2000 in
  let cfg2 := sample_config 1155 0 2000 in
  validation cfg1 = None ∧ validation cfg2 = None ∧
  output_path "." sample_address (BLOCK_TO cfg1)
    = output_path "." sample_address (BLOCK_TO cfg2).
Proof.
  intros cfg1 cfg2.
  assert (Hv1 : validation cfg1 = None) by reflexivity.
  assert (Hv2 : validation cfg2 = None) by reflexivity.
  split; [exact Hv1|]. split; [exact Hv2|].
  apply (output_path_identifies_run "." cfg1 cfg2 sample_address sample_address
           Hv1 Hv2 eq_refl eq_refl).
  by split.
Defined.

Lemma multi_asset_window_witness :
  queryTransferSingle multi_asset_contract 0 250 = Ok [sample_single_event] ∧
  queryTransferBatch multi_asset_contract 0 250 = Ok [sample_batch_event] ∧
  Forall (λ event, Event._ids event = None) [sample_batch_event] ∧
  Forall safe_amount [sample_single_event] ∧
  ∃ recs,
    getEventsInRange (Some 1155) multi_asset_contract 0 250 = Ok recs ∧
    Forall2 (λ event r,
               key r = (Event.blockNumber event, Event.transactionIndex event,
                        Event.logIndex event) ∧
               from r = TransferSingleArgs._from (Event.args event) ∧
               to r = TransferSingleArgs._to (Event.args event) ∧
               id r = toString (TransferSingleArgs._id (Event.args event)) ∧
               amount r = TransferSingleArgs._amount (Event.args event))
            [sample_single_event] recs.
Proof.
  assert (Hts : queryTransferSingle multi_asset_contract 0 250
                = Ok [sample_single_event]) by reflexivity.
  assert (Htb : queryTransferBatch multi_asset_contract 0 250
                = Ok [sample_batch_event]) by reflexivity.
  assert (Hnone : Forall (λ event : Event.t TransferBatchArgs.t,
                            Event._ids event = None) [sample_batch_event])
    by (by repeat constructor).
  assert (Hsafe : Forall safe_amount [sample_single_event]).
  { repeat constructor. unfold safe_amount, MAX_SAFE_INTEGER. simpl. lia. }
  split; [exact Hts|]. split; [exact Htb|]. split; [exact Hnone|].
  split; [exact Hsafe|].
  exact (proj1 (multi_asset_window multi_asset_contract 0 250 _ _ Hts Htb Hnone)
           Hsafe).
Defined.

Lemma no_dispatch_after_a_failed_group_witness :
  ∃ out g1 g2,
    program (sample_config 721 1000 5000) late_flaky_contract = Some out ∧
    dispatched out = [g1] ++ [g2] ∧ length g1 = 11%nat ∧ length g2 = 4%nat ∧
    exit_status out = 1 ∧
    ∃ rs, Promise_all (getEventsInRange (Some 721) late_flaky_contract)
            (concat [g1]) = Ok rs.
Proof.
  destruct (no_dispatch_after_a_failed_group (sample_config 721 1000 5000)
              late_flaky_contract) as (out & Hrun & Hgroups).
  exists out.
  assert (Hd : ∃ g1 g2, dispatched out = [g1] ++ [g2] ∧
                 length g1 = 11%nat ∧ length g2 = 4%nat ∧ exit_status out = 1).
  { vm_compute in Hrun. injection Hrun as <-. by eexists _, _. }
  destruct Hd as (g1 & g2 & Hd & Hl1 & Hl2 & Hexit).
  exists g1, g2. split; [exact Hrun|]. split; [exact Hd|].
  split; [exact Hl1|]. split; [exact Hl2|]. split; [exact Hexit|].
  exact (Hgroups [g1] g2 Hd).
Defined.

(** * Short ranges and the comparator *)

(** A range of at most [BLOCK_SIZE + 1] blocks, and any range whose end
    lies before its start, is not queried at all: on an accepted command
    line the run dispatches nothing, prints nothing, writes the empty
    table and exits with status 0. *)
Theorem short_range_writes_empty_table (cfg : Config) (tokenContract : EventSource) :
  validation cfg = None →
  BLOCK_TO cfg ≤ BLOCK_FROM cfg + BLOCK_SIZE →
  program cfg tokenContract =
    Some {| stderr := []; dispatched := []; written := Some ∅;
            exit_status := 0 |}.
Proof.
  intros Hv Hshort. unfold program, run, main, fetch. rewrite Hv.
  by rewrite fetch_loop_done by lia.
Qed.

Lemma short_range_writes_empty_table_witness :
  let cfg := sample_config 721 1000 1250 in
  validation cfg = None ∧ BLOCK_TO cfg ≤ BLOCK_FROM cfg + BLOCK_SIZE ∧
  program cfg quiet_contract =
    Some {| stderr := []; dispatched := []; written := Some ∅;
            exit_status := 0 |}.
Proof.
  intros cfg.
  assert (Hv : validation cfg = None) by reflexivity.
  assert (Hshort : BLOCK_TO cfg ≤ BLOCK_FROM cfg + BLOCK_SIZE)
    by (unfold BLOCK_SIZE; simpl; lia).
  exact (conj Hv (conj Hshort
           (short_range_writes_empty_table cfg quiet_contract Hv Hshort))).
Defined.

Section Comparator.
Lemma key_lt_asym (a b : Transfer) : key_lt a b → ¬ key_lt b a.
Proof. unfold key_lt. lia. Qed.
End Comparator.

(** The comparator is a consistent strict order on keys: it answers -1
    exactly when the first key is smaller, 1 exactly when it is larger,
    one of the two whenever the keys differ, and throws exactly when the
    keys are equal; swapping the arguments swaps -1 and 1. *)
Theorem compare_consistent (a b : Transfer) :
  (compare a b = Ok (-1) ↔ key_lt a b) ∧
  (compare a b = Ok 1 ↔ key_lt b a) ∧
  (compare a b = Throw "This should never, ever happen" ↔ key a = key b) ∧
  (compare a b = Ok (-1) ↔ compare b a = Ok 1).
Proof.
  pose proof (key_lt_asym a b) as Hab. pose proof (key_lt_asym b a) as Hba.
  pose proof (key_lt_irrefl a b) as Hi1. pose proof (key_lt_irrefl b a) as Hi2.
  assert (Hsym : key a = key b ↔ key b = key a) by (split; congruence).
  destruct (compare_spec a b) as [[Hlt Hc]|[[Hgt Hc]|[Heq Hc]]];
    destruct (compare_spec b a) as [[Hlt' Hc']|[[Hgt' Hc']|[Heq' Hc']]];
    rewrite Hc, Hc';
    repeat split; intros; try done; try tauto;
    exfalso; tauto.
Qed.
